(** * archinfo: the architecture descriptor and the registration engine

    A shallow embedding of [src/arch.py]: the [Endness] constants, the
    [Arch] base class (constructor, [copy], [__eq__], [struct_fmt], the tag
    translation helpers), the process-wide registry ([arch_id_map],
    [all_arches], [register_arch], [arch_from_id]) and [reverse_ends].

    Python objects that are mutated in place (the instruction-lifting blob
    [vex_archinfo], the two module-level lists, the logger) live in an
    explicit [World]; every method is a computation in a state-and-exception
    monad over that world. *)

From Stdlib Require Import ZArith Lia Strings.Ascii Strings.String Strings.Byte.
From Stdlib Require Import DecimalString DecimalPos DecimalZ.
From stdpp Require Import base option list strings gmap fin_maps.

Local Open Scope string_scope.
Local Open Scope list_scope.
Local Open Scope Z_scope.

(** ** Python values that reach this module dynamically typed *)

(** Hashable scalars used as dictionary keys and as tags: an [int] or a
    [str]. *)
Abbreviation PyAtom := (Z + string)%type.

Inductive PyVal :=
| PNone
| PInt (z : Z)
| PStr (s : string)
| PPattern (src : string)        (* a compiled [re] pattern object *)
| PList (l : list PyVal).

Definition atom_val (a : PyAtom) : PyVal :=
  match a with inl z => PInt z | inr s => PStr s end.

(** Truthiness as used by [if bits] and [not bits]. *)
Definition py_truthy (v : PyVal) : bool :=
  match v with
  | PNone => false
  | PInt z => negb (Z.eqb z 0)
  | PStr s => negb (String.eqb s "")
  | PPattern _ => true
  | PList l => match l with [] => false | _ => true end
  end.

(** The exception classes raised by the module. *)
Inductive exn :=
| ArchError
| TypeError
| ValueError
| RuntimeError
| AttributeError
| KeyError
| struct_error.

Inductive Res (A : Type) :=
| Ok (a : A)
| Raise (e : exn).
Arguments Ok {A} a.
Arguments Raise {A} e.

(** ** Byte strings and [struct] *)

Definition byte_to_Z (b : byte) : Z := Z.of_N (Byte.to_N b).

Definition Z_to_byte (z : Z) : byte :=
  match Byte.of_N (Z.to_N (z mod 256)) with
  | Some b => b
  | None => x00
  end.

(** One [I] field read with the [<] prefix: four bytes, least significant
    first. *)
Definition le32 (a b c d : byte) : Z :=
  byte_to_Z a + 256 * byte_to_Z b + 65536 * byte_to_Z c
  + 16777216 * byte_to_Z d.

(** One [I] field written with the [>] prefix: most significant byte
    first. *)
Definition be32 (x : Z) : list byte :=
  [Z_to_byte (x / 16777216); Z_to_byte (x / 65536);
   Z_to_byte (x / 256); Z_to_byte x].

(** [struct.unpack('<' + 'I'*n, s)]: the buffer must hold exactly [4*n]
    bytes, otherwise [struct.error]. *)
Fixpoint struct_unpack_le (n : nat) (s : list byte) : option (list Z) :=
  match n, s with
  | O, [] => Some []
  | S n', a :: b :: c :: d :: s' =>
      match struct_unpack_le n' s' with
      | Some xs => Some (le32 a b c d :: xs)
      | None => None
      end
  | _, _ => None
  end.

(** [struct.pack('>' + 'I'*n, *xs)]: every argument must fit an unsigned
    32-bit field, otherwise [struct.error]. *)
Fixpoint struct_pack_be (xs : list Z) : option (list byte) :=
  match xs with
  | [] => Some []
  | x :: xs' =>
      if Z.leb 0 x && Z.ltb x 4294967296 then
        match struct_pack_be xs' with
        | Some bs => Some (be32 x ++ bs)
        | None => None
        end
      else None
  end.

Definition reverse_ends (string : list byte) : Res (list byte) :=
  let ise := (length string / 4)%nat in
  match struct_unpack_le ise string with
  | None => Raise struct_error
  | Some xs =>
      match struct_pack_be xs with
      | None => Raise struct_error
      | Some bs => Ok bs
      end
  end.

(** The byte string with every aligned group of four bytes reversed; a
    trailing group shorter than four is left as it is. *)
Fixpoint swap_groups4 (fuel : nat) (s : list byte) : list byte :=
  match fuel, s with
  | S fuel', a :: b :: c :: d :: s' => d :: c :: b :: a :: swap_groups4 fuel' s'
  | _, _ => s
  end.

Definition reversed_in_groups_of_4 (s : list byte) : list byte :=
  swap_groups4 (length s) s.

(** ** [class Endness] *)

Module Endness.
Definition LE : string := "Iend_LE".
Definition BE : string := "Iend_BE".
Definition ME : string := "Iend_ME".
End Endness.

(** ** The instruction-lifting blob and the heap it lives in

    [vex_archinfo] is a Python [dict] with string keys whose values are
    scalars or further dicts.  Dicts are heap objects: a value holds a
    reference, so two dicts can share a nested one. *)

Inductive Scalar :=
| SNone
| SInt (z : Z)
| SStr (s : string).

Inductive Val :=
| VScalar (s : Scalar)
| VRef (l : nat).

(** A dict literal, as written in the source of the backend. *)
Inductive Tree :=
| TScalar (s : Scalar)
| TDict (kvs : list (string * Tree)).

Abbreviation Dict := (gmap string Val).
Abbreviation Heap := (list (gmap string Val)).

Definition heap_alloc (d : Dict) (h : Heap) : nat * Heap :=
  (length h, h ++ [d]).

(** Evaluating a dict literal allocates the inner dicts first. *)
Fixpoint alloc_tree (t : Tree) (h : Heap) : Val * Heap :=
  match t with
  | TScalar s => (VScalar s, h)
  | TDict kvs =>
      let fix fields (kvs : list (string * Tree)) (h : Heap) : Dict * Heap :=
        match kvs with
        | [] => (∅, h)
        | (k, t') :: rest =>
            let '(v, h1) := alloc_tree t' h in
            let '(d, h2) := fields rest h1 in
            (<[k := v]> d, h2)
        end in
      let '(d, h') := fields kvs h in
      let '(l, h'') := heap_alloc d h' in
      (VRef l, h'')
  end.

(** [blob[k1][k2]...[kn]] read from the dict at [l]. *)
Fixpoint blob_read (h : Heap) (l : nat) (path : list string) : option Val :=
  match path with
  | [] => Some (VRef l)
  | k :: path' =>
      match h !! l with
      | None => None
      | Some d =>
          match d !! k, path' with
          | Some v, [] => Some v
          | Some (VRef l'), _ => blob_read h l' path'
          | _, _ => None
          end
      end
  end.

(** [blob[k1][k2]...[kn] = v] on the dict at [l]; [None] when an inner
    subscript fails. *)
Fixpoint blob_write (h : Heap) (l : nat) (path : list string) (v : Val)
  : option Heap :=
  match path with
  | [] => None
  | [k] =>
      match h !! l with
      | None => None
      | Some d => Some (<[l := <[k := v]> d]> h)
      end
  | k :: path' =>
      match h !! l with
      | None => None
      | Some d =>
          match d !! k with
          | Some (VRef l') => blob_write h l' path' v
          | _ => None
          end
      end
  end.

(** ** The optional backends and the [re] module *)

Record Pyvex := {
  default_vex_archinfo : list (string * Tree);
  vex_endness_from_string : string → Scalar;
}.

Record Capstone := {
  CS_MODE_LITTLE_ENDIAN : Z;
  CS_MODE_BIG_ENDIAN : Z;
}.

Record Unicorn := {
  UC_MODE_LITTLE_ENDIAN : Z;
  UC_MODE_BIG_ENDIAN : Z;
}.

(** What the module imports: each backend is [None] when its import failed;
    [re_compiles rx] says whether [re.compile(rx)] returns, and
    [re_match rx s] whether [re.match(rx, s)] finds a match at the start of
    [s]. *)
Record Env := {
  _pyvex : option Pyvex;
  _unicorn : option Unicorn;
  _capstone : option Capstone;
  re_compiles : string → bool;
  re_match : string → string → bool;
}.

(** ** Class attributes of a variant ([Arch] or a subclass of it) *)

Record Variant := {
  cls_name : option string;
  cls_bits : option Z;
  cls_memory_endness : string;
  cls_register_endness : string;
  cls_ret_instruction : list byte;
  cls_nop_instruction : list byte;
  (* name -> (offset, size), in the dict's iteration order *)
  cls_registers : list (string * (Z * Z));
  (* offset -> name *)
  cls_register_names : gmap PyAtom string;
  cls_cs_mode : option Z;
  cls_uc_mode : option Z;
  cls_uc_const : option (gmap string Z);
  cls_uc_prefix : option string;
  cls_dynamic_tag_translation : gmap PyAtom PyAtom;
  cls_symbol_type_translation : gmap PyAtom PyAtom;
  (* default of the [endness] parameter in the subclass's constructor
     signature; [Arch.__init__] itself has none *)
  cls_init_default : option string;
}.

(** The attribute values of [class Arch] itself. *)
Definition Arch_class : Variant := {|
  cls_name := None;
  cls_bits := None;
  cls_memory_endness := Endness.LE;
  cls_register_endness := Endness.LE;
  cls_ret_instruction := [];
  cls_nop_instruction := [];
  cls_registers := [];
  cls_register_names := ∅;
  cls_cs_mode := None;
  cls_uc_mode := None;
  cls_uc_const := None;
  cls_uc_prefix := None;
  cls_dynamic_tag_translation := ∅;
  cls_symbol_type_translation := ∅;
  cls_init_default := None;
|}.

(** ** An [Arch] instance: its class and its instance attributes *)

Record Arch := {
  cls : Variant;                              (* type(self) *)
  memory_endness : string;
  register_endness : string;
  ret_instruction : list byte;
  nop_instruction : list byte;
  cs_mode : option Z;
  uc_mode : option Z;
  register_size_names : gmap (Z * Z) string;
  uc_regs : option (gmap string Z);
  vex_archinfo : option nat;                  (* None, or the blob's address *)
}.

Definition name (a : Arch) : option string := cls_name (cls a).
Definition bits (a : Arch) : option Z := cls_bits (cls a).

(** [a.vex_archinfo = vex] *)
Definition with_vex_archinfo (a : Arch) (vex : option nat) : Arch :=
  {| cls := cls a;
     memory_endness := memory_endness a;
     register_endness := register_endness a;
     ret_instruction := ret_instruction a;
     nop_instruction := nop_instruction a;
     cs_mode := cs_mode a;
     uc_mode := uc_mode a;
     register_size_names := register_size_names a;
     uc_regs := uc_regs a;
     vex_archinfo := vex |}.

(** ** The world: heap, module-level lists, logger output *)

Record LogRecord := {
  lr_msg : string;
  lr_tag : Z;
  lr_arch : option string;
}.

Record Entry := {
  e_regexes : list PyVal;
  e_bits : Z;
  e_endness : string;
  e_cls : Variant;
}.

Record World := {
  heap : Heap;
  arch_id_map : list Entry;
  all_arches : list Arch;
  log : list LogRecord;
}.

Definition empty_world : World :=
  {| heap := []; arch_id_map := []; all_arches := []; log := [] |}.

(** ** State-and-exception monad *)

Definition M (A : Type) : Type := World → Res A * World.

Definition ret {A} (a : A) : M A := fun w => (Ok a, w).
Definition raise {A} (e : exn) : M A := fun w => (Raise e, w).
Definition bind {A B} (m : M A) (f : A → M B) : M B :=
  fun w =>
    match m w with
    | (Ok a, w') => f a w'
    | (Raise e, w') => (Raise e, w')
    end.

Notation "x <- m ;; k" := (bind m (fun x => k))
  (at level 100, m at next level, right associativity).
Definition lift {A} (r : Res A) : M A := fun w => (r, w).

Definition with_heap {A} (f : Heap → A * Heap) : M A :=
  fun w =>
    let '(a, h) := f (heap w) in
    (Ok a, {| heap := h; arch_id_map := arch_id_map w;
              all_arches := all_arches w; log := log w |}).

Definition arch_id_map_append (e : Entry) : M unit :=
  fun w => (Ok tt, {| heap := heap w; arch_id_map := arch_id_map w ++ [e];
                      all_arches := all_arches w; log := log w |}).

Definition all_arches_append (a : Arch) : M unit :=
  fun w => (Ok tt, {| heap := heap w; arch_id_map := arch_id_map w;
                      all_arches := all_arches w ++ [a]; log := log w |}).

Definition l_error (r : LogRecord) : M unit :=
  fun w => (Ok tt, {| heap := heap w; arch_id_map := arch_id_map w;
                      all_arches := all_arches w; log := log w ++ [r] |}).

Definition get_heap : M Heap := fun w => (Ok (heap w), w).

Definition put_heap (h : Heap) : M unit :=
  fun w => (Ok tt, {| heap := h; arch_id_map := arch_id_map w;
                      all_arches := all_arches w; log := log w |}).

(** ** [str] helpers *)

Definition ascii_lower (c : ascii) : ascii :=
  let n := nat_of_ascii c in
  if Nat.leb 65 n && Nat.leb n 90 then ascii_of_nat (n + 32) else c.

Definition ascii_upper (c : ascii) : ascii :=
  let n := nat_of_ascii c in
  if Nat.leb 97 n && Nat.leb n 122 then ascii_of_nat (n - 32) else c.

Fixpoint lower (s : string) : string :=
  match s with
  | EmptyString => EmptyString
  | String c s' => String (ascii_lower c) (lower s')
  end.

Fixpoint upper (s : string) : string :=
  match s with
  | EmptyString => EmptyString
  | String c s' => String (ascii_upper c) (upper s')
  end.

(** [sub in s] on strings. *)
Fixpoint contains (sub s : string) : bool :=
  String.prefix sub s
  || match s with
     | EmptyString => false
     | String _ s' => contains sub s'
     end.

(** [k in d] on a dict. *)
Definition has_key `{Countable K} {V} (k : K) (d : gmap K V) : bool :=
  match d !! k with Some _ => true | None => false end.

(** ** [Arch.__init__]: the register-size table *)

(** One iteration of [for k in self.registers]. *)
Definition register_size_names_step
    (nm : option string) (register_names : gmap PyAtom string)
    (tbl : gmap (Z * Z) string) (kv : string * (Z * Z))
  : gmap (Z * Z) string :=
  let '(k, v) := kv in
  if bool_decide (nm ∈ [Some "X86"; Some "AMD64"])
     && bool_decide (k ∈ ["bp"; "sp"; "ip"])
  then tbl
  else if has_key v tbl && negb (has_key (inr k) register_names)
  then tbl
  else <[v := k]> tbl.

Definition build_register_size_names (v : Variant) : gmap (Z * Z) string :=
  fold_left (register_size_names_step (cls_name v) (cls_register_names v))
            (cls_registers v) ∅.

(** ** [Arch.__init__]: the unicorn part *)

(** One iteration of [for r in self.register_names.values()]. *)
Definition uc_regs_step (v : Variant) (acc : Res (gmap string Z)) (r : string)
  : Res (gmap string Z) :=
  match acc with
  | Raise e => Raise e
  | Ok regs =>
      match cls_uc_prefix v with
      | None => Raise TypeError
      | Some prefix =>
          let reg_name := prefix +:+ "REG_" +:+ upper r in
          match cls_uc_const v with
          | None => Ok regs
          | Some consts =>
              match consts !! reg_name with
              | Some c => Ok (<[r := c]> regs)
              | None => Ok regs
              end
          end
      end
  end.

Section arch.
Variable env : Env.

(** The block guarded by [if self.uc_mode is not None]: the adjusted mode
    and the register map, or the class defaults when it is skipped. *)
Definition init_unicorn (v : Variant) (endness : string)
  : Res (option Z * option (gmap string Z)) :=
  match cls_uc_mode v with
  | None => Ok (None, None)
  | Some m =>
      let mode :=
        if String.eqb endness Endness.BE then
          match _unicorn env with
          | None => Raise AttributeError
          | Some uc => Ok (m - UC_MODE_LITTLE_ENDIAN uc + UC_MODE_BIG_ENDIAN uc)
          end
        else Ok m in
      match mode with
      | Raise e => Raise e
      | Ok m' =>
          match fold_left (uc_regs_step v)
                  (map snd (map_to_list (cls_register_names v))) (Ok ∅) with
          | Raise e => Raise e
          | Ok regs => Ok (Some m', Some regs)
          end
      end
  end.

(** [self.vex_archinfo = _pyvex.default_vex_archinfo()] *)
Definition init_vex_archinfo : M (option nat) :=
  match _pyvex env with
  | None => ret None
  | Some pv =>
      v <- with_heap (alloc_tree (TDict (default_vex_archinfo pv))) ;;
      match v with
      | VRef l => ret (Some l)
      | VScalar _ => ret None
      end
  end.

(** [if self.vex_archinfo: self.vex_archinfo['endness'] = ...] *)
Definition flip_vex_endness (vex : option nat) : M unit :=
  match vex, _pyvex env with
  | Some l, Some pv =>
      h <- get_heap ;;
      match h !! l with
      | Some d =>
          if bool_decide (d = ∅) then ret tt
          else put_heap
                 (<[l := <["endness" :=
                      VScalar (vex_endness_from_string pv "VexEndnessBE")]> d]> h)
      | None => ret tt
      end
  | _, _ => ret tt
  end.

Definition Arch_init (v : Variant) (endness : string) : M Arch :=
  if negb (bool_decide (endness ∈ [Endness.LE; Endness.BE; Endness.ME]))
  then raise ArchError
  else
    vex <- init_vex_archinfo ;;
    flipped <-
      (if String.eqb endness Endness.BE then
         _ <- flip_vex_endness vex ;;
         let cs :=
           match _capstone env, cls_cs_mode v with
           | Some c, Some m =>
               Some (m - CS_MODE_LITTLE_ENDIAN c + CS_MODE_BIG_ENDIAN c)
           | _, m => m
           end in
         r <- lift (reverse_ends (cls_ret_instruction v)) ;;
         n <- lift (reverse_ends (cls_nop_instruction v)) ;;
         ret (Endness.BE, Endness.BE, cs, r, n)
       else
         ret (cls_memory_endness v, cls_register_endness v, cls_cs_mode v,
              cls_ret_instruction v, cls_nop_instruction v)) ;;
    let '(mem, reg, cs, r, n) := flipped in
    uc <- lift (init_unicorn v endness) ;;
    ret {| cls := v;
           memory_endness := mem;
           register_endness := reg;
           ret_instruction := r;
           nop_instruction := n;
           cs_mode := cs;
           uc_mode := fst uc;
           register_size_names := build_register_size_names v;
           uc_regs := snd uc;
           vex_archinfo := vex |}.

(** ** [Arch.copy] *)

(** [d.copy()] on the dict at [l]: a new dict with the same items. *)
Definition dict_copy (l : nat) : M nat :=
  h <- get_heap ;;
  match h !! l with
  | None => raise AttributeError
  | Some d => with_heap (heap_alloc d)
  end.

Definition Arch_copy (self : Arch) : M Arch :=
  new_arch <- Arch_init (cls self) (memory_endness self) ;;
  blob <- match vex_archinfo self with
          | None => raise AttributeError
          | Some l => dict_copy l
          end ;;
  ret (with_vex_archinfo new_arch (Some blob)).

(** ** [Arch.__eq__] *)

(** What [other] may be: an [Arch] instance or some other Python value. *)
Inductive PyObj :=
| OArch (a : Arch)
| OVal (v : PyVal).

Definition Arch_eq (self : Arch) (other : PyObj) : bool :=
  match other with
  | OVal _ => false
  | OArch other =>
      bool_decide (name self = name other)
      && bool_decide (bits self = bits other)
      && String.eqb (memory_endness self) (memory_endness other)
  end.

Definition Arch_ne (self : Arch) (other : PyObj) : bool :=
  negb (Arch_eq self other).

(** ** [Arch.struct_fmt] *)

Definition struct_fmt (self : Arch) (size : option Z) : Res string :=
  let fmt := "" in
  let size := match size with None => bits self | Some s => Some s end in
  let fmt :=
    if String.eqb (memory_endness self) Endness.BE
    then fmt +:+ ">" else fmt +:+ "<" in
  match size with
  | Some 64 => Ok (fmt +:+ "Q")
  | Some 32 => Ok (fmt +:+ "I")
  | Some 16 => Ok (fmt +:+ "H")
  | Some 8 => Ok (fmt +:+ "B")
  | _ => Raise ValueError
  end.

(** ** [Arch.translate_dynamic_tag], [Arch.translate_symbol_type] *)

Definition translate_dynamic_tag (self : Arch) (tag : PyAtom) : M PyAtom :=
  match cls_dynamic_tag_translation (cls self) !! tag with
  | Some t => ret t
  | None =>
      _ <- match tag with
           | inl n =>
               l_error {| lr_msg :=
                            "Please look up and add dynamic tag type %#x for %s";
                          lr_tag := n; lr_arch := name self |}
           | inr _ => ret tt
           end ;;
      ret tag
  end.

Definition translate_symbol_type (self : Arch) (tag : PyAtom) : M PyAtom :=
  match cls_symbol_type_translation (cls self) !! tag with
  | Some t => ret t
  | None =>
      _ <- match tag with
           | inl n =>
               l_error {| lr_msg :=
                            "Please look up and add symbol type %#x for %s";
                          lr_tag := n; lr_arch := name self |}
           | inr _ => ret tt
           end ;;
      ret tag
  end.

(** ** [register_arch] *)

(** The body of [for rx in regexes]. *)
Definition check_regex (rx : PyVal) : M unit :=
  match rx with
  | PStr s => if re_compiles env s then ret tt else raise ValueError
  | PPattern _ => ret tt
  | _ => raise TypeError
  end.

Fixpoint check_regexes (rxs : list PyVal) : M unit :=
  match rxs with
  | [] => ret tt
  | rx :: rxs' => _ <- check_regex rx ;; check_regexes rxs'
  end.

Definition register_arch (regexes bits endness : PyVal) (my_arch : Variant)
  : M unit :=
  match regexes with
  | PList rxs =>
      _ <- check_regexes rxs ;;
      match bits with
      | PInt b =>
          match endness with
          | PStr e =>
              _ <- arch_id_map_append
                     {| e_regexes := rxs; e_bits := b; e_endness := e;
                        e_cls := my_arch |} ;;
              if String.eqb e "any" then
                be <- Arch_init my_arch Endness.BE ;;
                _ <- all_arches_append be ;;
                le <- Arch_init my_arch Endness.LE ;;
                all_arches_append le
              else
                a <- Arch_init my_arch e ;;
                all_arches_append a
          | _ => raise TypeError
          end
      | _ => raise TypeError
      end
  | _ => raise TypeError
  end.

(** ** [arch_from_id] *)

Definition normalize_bits (bits : PyVal) (ident : string) : PyVal :=
  let is_str_with (sub : string) :=
    match bits with PStr s => contains sub s | _ => false end in
  if match bits with PInt 64 => true | _ => false end || is_str_with "64"
  then PInt 64
  else if is_str_with "32" then PInt 32
  else if negb (py_truthy bits) && contains "64" ident then PInt 64
  else if negb (py_truthy bits) && contains "32" ident then PInt 32
  else bits.

Definition normalize_endness (endness : string) : string :=
  let endness := lower endness in
  if contains "lit" endness then Endness.LE
  else if contains "big" endness then Endness.BE
  else if contains "lsb" endness then Endness.LE
  else if contains "msb" endness then Endness.BE
  else if contains "le" endness then Endness.LE
  else if contains "be" endness then Endness.BE
  else if contains "l" endness then "unsure"
  else if contains "b" endness then "unsure"
  else "unsure".

(** [bits != abits], with [abits] an [int]. *)
Definition bits_differ (bits : PyVal) (abits : Z) : bool :=
  match bits with
  | PInt z => negb (Z.eqb z abits)
  | _ => true
  end.

(** The inner loop [for rx in arxs]: whether some pattern matches. *)
Fixpoint found_it (arxs : list PyVal) (ident : string) : Res bool :=
  match arxs with
  | [] => Ok false
  | PStr rx :: arxs' | PPattern rx :: arxs' =>
      if re_match env rx ident then Ok true else found_it arxs' ident
  | _ :: _ => Raise TypeError
  end.

(** The outer loop over [arch_id_map]: the class and the declared endness
    of the first accepted entry. *)
Fixpoint scan_arch_id_map (entries : list Entry) (ident : string)
    (bits : PyVal) (endness : string) : Res (option (Variant * string)) :=
  match entries with
  | [] => Ok None
  | e :: entries' =>
      match found_it (e_regexes e) ident with
      | Raise x => Raise x
      | Ok false => scan_arch_id_map entries' ident bits endness
      | Ok true =>
          if py_truthy bits && bits_differ bits (e_bits e)
          then scan_arch_id_map entries' ident bits endness
          else if String.eqb (e_endness e) "any"
                  || String.eqb endness (e_endness e)
                  || String.eqb endness "unsure"
          then Ok (Some (e_cls e, e_endness e))
          else scan_arch_id_map entries' ident bits endness
      end
  end.

Definition arch_from_id (ident endness : string) (bits : PyVal) : M Arch :=
  let bits := normalize_bits bits ident in
  let endness := normalize_endness endness in
  let ident := lower ident in
  w <- (fun w => (Ok w, w)) ;;
  found <- lift (scan_arch_id_map (arch_id_map w) ident bits endness) ;;
  match found with
  | None => raise RuntimeError
  | Some (cls, aendness) =>
      if String.eqb endness "unsure" then
        if String.eqb aendness "any" then
          match cls_init_default cls with
          | Some e => Arch_init cls e
          | None => raise TypeError
          end
        else Arch_init cls aendness
      else Arch_init cls endness
  end.

(** The defaults of the optional parameters: [endness='any'], [bits='']. *)
Definition arch_from_id_default (ident : string) : M Arch :=
  arch_from_id ident "any" (PStr "").
End arch.

(** ** Running a computation *)

Definition run {A} (m : M A) (w : World) : Res A := fst (m w).
Definition exec {A} (m : M A) (w : World) : World := snd (m w).

Definition res_map {A B} (f : A → B) (r : Res A) : Res B :=
  match r with
  | Ok a => Ok (f a)
  | Raise e => Raise e
  end.

(** The instance [Arch.__init__] hands back when no statement of it raises:
    [vex] is the address of the blob and [uc] what the unicorn block
    computed. *)
Definition constructed (env : Env) (v : Variant) (endness : string)
    (vex : option nat) (uc : option Z * option (gmap string Z)) : Arch :=
  let be := String.eqb endness Endness.BE in
  {| cls := v;
     memory_endness := if be then Endness.BE else cls_memory_endness v;
     register_endness := if be then Endness.BE else cls_register_endness v;
     ret_instruction :=
       if be then reversed_in_groups_of_4 (cls_ret_instruction v)
       else cls_ret_instruction v;
     nop_instruction :=
       if be then reversed_in_groups_of_4 (cls_nop_instruction v)
       else cls_nop_instruction v;
     cs_mode :=
       if be then
         match _capstone env, cls_cs_mode v with
         | Some c, Some m =>
             Some (m - CS_MODE_LITTLE_ENDIAN c + CS_MODE_BIG_ENDIAN c)
         | _, m => m
         end
       else cls_cs_mode v;
     uc_mode := fst uc;
     register_size_names := build_register_size_names v;
     uc_regs := snd uc;
     vex_archinfo := vex |}.

(** The two module-level lists and the logger output of a world. *)
Definition globals (w : World) : list Entry * list Arch * list LogRecord :=
  (arch_id_map w, all_arches w, log w).

(** An interpreter without any optional backend, whose [re] understands a
    leading [^] followed by literal characters. *)
Definition literal_prefix_match (rx s : string) : bool :=
  match rx with
  | String "^" rx' => String.prefix rx' s
  | _ => String.prefix rx s
  end.

Definition bare_env : Env :=
  {| _pyvex := None; _unicorn := None; _capstone := None;
     re_compiles := fun _ => true;
     re_match := literal_prefix_match |}.

(** ** Sample variants *)

(** A 32-bit variant in the style of the MIPS tables: [jr $ra; nop] as the
    return sequence, one all-zero word as the no-op. *)
Definition sample_mips : Variant := {|
  cls_name := Some "MIPS32";
  cls_bits := Some 32;
  cls_memory_endness := Endness.LE;
  cls_register_endness := Endness.LE;
  cls_ret_instruction := [x08; x00; xe0; x03; x25; x08; x20; x00];
  cls_nop_instruction := [x00; x00; x00; x00];
  cls_registers := [("zero", (0, 4)); ("at", (4, 4)); ("v0", (8, 4))];
  cls_register_names := {[ inl 0 := "zero"; inl 4 := "at"; inl 8 := "v0" ]};
  cls_cs_mode := None;
  cls_uc_mode := None;
  cls_uc_const := None;
  cls_uc_prefix := None;
  cls_dynamic_tag_translation := {[ inl 1879048193 := inr "DT_MIPS_RLD_VERSION" ]};
  cls_symbol_type_translation := ∅;
  cls_init_default := Some Endness.LE;
|}.

(** [sample_mips(Endness.LE)] and [sample_mips(Endness.BE)] without
    backends. *)
Definition sample_mips_le : Arch :=
  constructed bare_env sample_mips Endness.LE None (None, None).
Definition sample_mips_be : Arch :=
  constructed bare_env sample_mips Endness.BE None (None, None).

(** The letter [struct] uses for an unsigned integer of [size] bits. *)
Definition unsigned_code (size : Z) : option string :=
  if Z.eqb size 64 then Some "Q"
  else if Z.eqb size 32 then Some "I"
  else if Z.eqb size 16 then Some "H"
  else if Z.eqb size 8 then Some "B"
  else None.

(** ** The register-size table, described

    [generic_alias] is the test of the X86/AMD64 special case;
    [claimants] lists, in iteration order, the names that reach the
    collision test for one (offset, size) pair; [winner] folds the
    collision rule of the loop over them. *)

Definition generic_alias (nm : option string) (k : string) : bool :=
  bool_decide (nm ∈ [Some "X86"; Some "AMD64"])
  && bool_decide (k ∈ ["bp"; "sp"; "ip"]).

Definition claimants (nm : option string) (registers : list (string * (Z * Z)))
    (v : Z * Z) : list string :=
  map fst
    (List.filter
       (fun kv => bool_decide (snd kv = v) && negb (generic_alias nm (fst kv)))
       registers).

Definition winner_step (register_names : gmap PyAtom string)
    (cur : option string) (k : string) : option string :=
  match cur with
  | None => Some k
  | Some first =>
      if has_key (inr k) register_names then Some k else Some first
  end.

Definition winner (register_names : gmap PyAtom string) (ks : list string)
  : option string :=
  fold_left (winner_step register_names) ks None.

(** The table as the specification words it: an (offset, size) pair that
    is already claimed is never given to a later name. *)
Definition spec_register_size_names_step
    (nm : option string) (register_names : gmap PyAtom string)
    (tbl : gmap (Z * Z) string) (kv : string * (Z * Z))
  : gmap (Z * Z) string :=
  let '(k, v) := kv in
  if generic_alias nm k then tbl
  else if has_key v tbl then tbl
  else <[v := k]> tbl.

Definition spec_register_size_names (v : Variant) : gmap (Z * Z) string :=
  fold_left (spec_register_size_names_step (cls_name v) (cls_register_names v))
            (cls_registers v) ∅.

(** A variant whose display map is (also) keyed by a register name, and
    whose forward table lists two names for one slot. *)
Definition sample_keyed_by_name : Variant := {|
  cls_name := Some "ARMEL";
  cls_bits := Some 32;
  cls_memory_endness := Endness.LE;
  cls_register_endness := Endness.LE;
  cls_ret_instruction := [x1e; xff; x2f; xe1];
  cls_nop_instruction := [x00; x00; x00; x00];
  cls_registers := [("r13", (60, 4)); ("sp", (60, 4))];
  cls_register_names := {[ inl 60 := "sp"; inr "sp" := "sp" ]};
  cls_cs_mode := None;
  cls_uc_mode := None;
  cls_uc_const := None;
  cls_uc_prefix := None;
  cls_dynamic_tag_translation := ∅;
  cls_symbol_type_translation := ∅;
  cls_init_default := Some Endness.LE;
|}.

(** An X86-named variant that lists the generic aliases first. *)
Definition sample_x86 : Variant := {|
  cls_name := Some "X86";
  cls_bits := Some 32;
  cls_memory_endness := Endness.LE;
  cls_register_endness := Endness.LE;
  cls_ret_instruction := [xc3];
  cls_nop_instruction := [x90];
  cls_registers :=
    [("sp", (24, 4)); ("esp", (24, 4)); ("bp", (28, 4)); ("ebp", (28, 4));
     ("ip", (68, 4)); ("eip", (68, 4)); ("pc", (68, 4))];
  cls_register_names := {[ inl 24 := "esp"; inl 28 := "ebp"; inl 68 := "eip" ]};
  cls_cs_mode := None;
  cls_uc_mode := None;
  cls_uc_const := None;
  cls_uc_prefix := None;
  cls_dynamic_tag_translation := ∅;
  cls_symbol_type_translation := ∅;
  cls_init_default := Some Endness.LE;
|}.

(** ** The registry, described *)

(** The tuple [register_arch] appends for well-typed arguments. *)
Definition entry_of (rxs : list PyVal) (b : Z) (e : string) (my_arch : Variant)
  : Entry :=
  {| e_regexes := rxs; e_bits := b; e_endness := e; e_cls := my_arch |}.

(** [arch_id_map.append(e)] seen on the world. *)
Definition registered (e : Entry) (w : World) : World :=
  {| heap := heap w; arch_id_map := arch_id_map w ++ [e];
     all_arches := all_arches w; log := log w |}.

(** Two instances that agree on everything but the address of their
    blob. *)
Definition same_but_blob (a b : Arch) : Prop :=
  with_vex_archinfo a None = with_vex_archinfo b None.

(** The registry after [register_arch(["^foo"], 32, Endness.LE, sample_mips)]
    and then [register_arch(["^foo"], 32, "any", sample_keyed_by_name)]. *)
Definition world_after_A : World :=
  exec (register_arch bare_env (PList [PStr "^foo"]) (PInt 32)
          (PStr Endness.LE) sample_mips) empty_world.

Definition world_after_B : World :=
  exec (register_arch bare_env (PList [PStr "^foo"]) (PInt 32)
          (PStr "any") sample_keyed_by_name) world_after_A.

(** ** Reading and writing the blob of an instance *)

(** [self.vex_archinfo[k1]...[kn]] *)
Definition vex_archinfo_get (self : Arch) (path : list string) : M Val :=
  match vex_archinfo self with
  | None => raise TypeError
  | Some l =>
      h <- get_heap ;;
      match blob_read h l path with
      | Some v => ret v
      | None => raise KeyError
      end
  end.

(** [self.vex_archinfo[k1]...[kn] = v] *)
Definition vex_archinfo_set (self : Arch) (path : list string) (v : Val)
  : M unit :=
  match vex_archinfo self with
  | None => raise TypeError
  | Some l =>
      h <- get_heap ;;
      match blob_write h l path v with
      | Some h' => put_heap h'
      | None => raise KeyError
      end
  end.

(** An interpreter with the instruction-lifting backend, whose default
    blob holds scalars and one nested dict. *)
Definition pyvex_env : Env :=
  {| _pyvex := Some {|
       default_vex_archinfo :=
         [("hwcaps", TScalar (SInt 0));
          ("endness", TScalar (SStr "VexEndnessLE"));
          ("hwcache_info",
           TDict [("num_levels", TScalar (SInt 0));
                  ("num_caches", TScalar (SInt 0));
                  ("caches", TScalar SNone);
                  ("icaches_maintain_coherence", TScalar (SInt 1))]);
          ("x86_cr0", TScalar (SInt 4294967295))];
       vex_endness_from_string := SStr |};
     _unicorn := None; _capstone := None;
     re_compiles := fun _ => true;
     re_match := literal_prefix_match |}.

(** [a = sample_mips(Endness.LE); c = a.copy()], then one assignment into
    [c]'s blob at [path]; the result is what [a]'s blob holds at [path]
    before and after it. *)
Definition copy_then_assign (path : list string) (v : Val) : M (Val * Val) :=
  a <- Arch_init pyvex_env sample_mips Endness.LE ;;
  c <- Arch_copy pyvex_env a ;;
  before <- vex_archinfo_get a path ;;
  _ <- vex_archinfo_set c path v ;;
  after <- vex_archinfo_get a path ;;
  ret (before, after).

(** ** The remaining methods of [Arch] *)

(** [str(n)] for an [int]. *)
Definition py_str_int (n : Z) : string :=
  NilZero.string_of_int (Z.to_int n).

(** [d[name]] on the forward table: a dict has one item per key, so the
    first item with the key is the item. *)
Fixpoint registers_get (registers : list (string * (Z * Z))) (name : string)
  : option (Z * Z) :=
  match registers with
  | [] => None
  | (k, v) :: registers' =>
      if String.eqb k name then Some v else registers_get registers' name
  end.

Definition translate_register_name (self : Arch) (offset : Z) (size : option Z)
  : string :=
  let by_offset :=
    match cls_register_names (cls self) !! inl offset with
    | Some n => n
    | None => py_str_int offset
    end in
  match size with
  | Some sz =>
      match register_size_names self !! (offset, sz) with
      | Some n => n
      | None => by_offset
      end
  | None => by_offset
  end.

Definition get_register_offset (self : Arch) (name : string) : Res Z :=
  match registers_get (cls_registers (cls self)) name with
  | Some v => Ok (fst v)
  | None => Raise ValueError
  end.

(** Class attributes read only by the methods of this part. *)
Record MoreAttributes := {
  cls_persistent_regs : list string;
  cls_sp_offset : option Z;
  (* (reg, val, _, _) *)
  cls_default_register_values : list (string * Z * bool * option string);
  cls_triplet : option string;
  cls_linux_name : option string;
}.

(** The values of [class Arch] itself. *)
Definition Arch_class_more : MoreAttributes := {|
  cls_persistent_regs := [];
  cls_sp_offset := None;
  cls_default_register_values := [];
  cls_triplet := None;
  cls_linux_name := None;
|}.

(** The loop [for reg, val, _, _ in self.default_register_values]. *)
Fixpoint first_default (values : list (string * Z * bool * option string))
    (register : string) : option Z :=
  match values with
  | [] => None
  | (reg, val, _, _) :: values' =>
      if String.eqb reg register then Some val
      else first_default values' register
  end.

(** [[r for r, v in self.registers.items() if v[0] == self.sp_offset]] *)
Definition registers_at (registers : list (string * (Z * Z)))
    (sp_offset : option Z) : list string :=
  map fst
    (List.filter (fun rv => bool_decide (Some (fst (snd rv)) = sp_offset))
                 registers).

Definition get_default_reg_value (self : Arch) (more : MoreAttributes)
    (register : string) : option Z :=
  if String.eqb register "sp" then
    match registers_at (cls_registers (cls self)) (cls_sp_offset more) with
    | register :: _ => first_default (cls_default_register_values more) register
    | [] => None
    end
  else first_default (cls_default_register_values more) register.

(** ** [gather_info_from_state], [prepare_state]

    The execution state is a collaborator that offers
    [state.registers.load(reg)] and [state.registers.store(reg, val)]. *)

Section state_transfer.
Variables St V : Type.
Variable load : St → string → V.
Variable store : St → string → V → St.

Definition gather_info_from_state (more : MoreAttributes) (state : St)
  : gmap string V :=
  fold_left (fun info reg => <[reg := load state reg]> info)
            (cls_persistent_regs more) ∅.

Definition prepare_state (more : MoreAttributes) (state : St)
    (info : option (gmap string V)) : St :=
  match info with
  | None => state
  | Some info =>
      fold_left (fun state reg =>
                   match info !! reg with
                   | Some val => store state reg val
                   | None => state
                   end)
                (cls_persistent_regs more) state
  end.
End state_transfer.

(** ** [library_search_path] *)

(** [s.replace(old, new)] for a non-empty [old]: occurrences are replaced
    from the left and do not overlap.  [skip] counts the characters of an
    occurrence still to be dropped. *)
Fixpoint str_replace_from (skip : nat) (old new s : string) : string :=
  match s with
  | EmptyString => EmptyString
  | String c s' =>
      match skip with
      | S skip' => str_replace_from skip' old new s'
      | O =>
          if String.prefix old s
          then new +:+ str_replace_from (String.length old - 1) old new s'
          else String c (str_replace_from O old new s')
      end
  end.

Definition str_replace (s old new : string) : string :=
  str_replace_from O old new s.

(** [sum([[x + 'tls/${ARCH}/', x + 'tls/', x + '${ARCH}/', x] for x in path], [])] *)
Definition pedantic_paths (path : list string) : list string :=
  concat (map (fun x => [x +:+ "tls/${ARCH}/"; x +:+ "tls/"; x +:+ "${ARCH}/"; x])
              path).

Definition library_search_path (self : Arch) (more : MoreAttributes)
    (pedantic : bool) : Res (list string) :=
  let path := ["/lib/${TRIPLET}/"; "/usr/lib/${TRIPLET}/"; "/lib/"; "/usr/lib";
               "/usr/${TRIPLET}/lib/"] in
  let path :=
    match bits self with
    | Some 64 =>
        path ++ ["/usr/${TRIPLET}/lib64/"; "/usr/lib64/"; "/lib64/"]
    | Some 32 => path ++ ["/usr/${TRIPLET}/lib32/"; "/usr/lib32/"]
    | _ => path
    end in
  let path := if pedantic then pedantic_paths path else path in
  match cls_triplet more, cls_linux_name more with
  | Some triplet, Some linux_name =>
      Ok (map (fun x => str_replace (str_replace x "${TRIPLET}" triplet)
                                    "${ARCH}" linux_name) path)
  | _, _ => Raise TypeError
  end.

(** Further attributes for [sample_mips]. *)
Definition sample_mips_more : MoreAttributes := {|
  cls_persistent_regs := ["v0"; "at"];
  cls_sp_offset := Some 8;
  cls_default_register_values :=
    [("sp", 2147418112, true, Some "global"); ("v0", 7, false, None)];
  cls_triplet := Some "mipsel-linux-gnu";
  cls_linux_name := Some "mipsel";
|}.

(** An interpreter with the emulation backend imported, and a variant
    that selects it. *)
Definition unicorn_env : Env :=
  {| _pyvex := None;
     _unicorn := Some {| UC_MODE_LITTLE_ENDIAN := 0;
                         UC_MODE_BIG_ENDIAN := 1073741824 |};
     _capstone := None;
     re_compiles := fun _ => true;
     re_match := literal_prefix_match |}.

Definition sample_mips_uc : Variant := {|
  cls_name := Some "MIPS32";
  cls_bits := Some 32;
  cls_memory_endness := Endness.LE;
  cls_register_endness := Endness.LE;
  cls_ret_instruction := [x08; x00; xe0; x03; x25; x08; x20; x00];
  cls_nop_instruction := [x00; x00; x00; x00];
  cls_registers := [("zero", (0, 4)); ("at", (4, 4)); ("v0", (8, 4))];
  cls_register_names := {[ inl 0 := "zero"; inl 4 := "at"; inl 8 := "v0" ]};
  cls_cs_mode := None;
  cls_uc_mode := Some 4;
  cls_uc_const := Some {[ "UC_MIPS_REG_V0" := 4; "UC_MIPS_REG_AT" := 3;
                          "UC_MIPS_REG_SP" := 31 ]};
  cls_uc_prefix := Some "UC_MIPS_";
  cls_dynamic_tag_translation := ∅;
  cls_symbol_type_translation := ∅;
  cls_init_default := Some Endness.LE;
|}.

(** Whether a lookup of [tag] in [table] is a miss on an [int], the case
    in which the translation helpers call the logger. *)
Definition logs_miss (table : gmap PyAtom PyAtom) (tag : PyAtom) : bool :=
  match table !! tag, tag with
  | None, inl _ => true
  | _, _ => false
  end.

(** ** The filters of [register_arch] and [arch_from_id], described *)

(** An element of [regexes] that passes the loop of [register_arch]. *)
Definition regex_ok (env : Env) (rx : PyVal) : Prop :=
  match rx with
  | PStr s => re_compiles env s = true
  | PPattern _ => True
  | _ => False
  end.


(** The bit-width and endness tests of the loop of [arch_from_id]. *)
Definition bits_and_endness_fit (e : Entry) (bits : PyVal) (endness : string)
  : Prop :=
  (py_truthy bits = false ∨ bits = PInt (e_bits e))
  ∧ (e_endness e = "any" ∨ endness = e_endness e ∨ endness = "unsure").

(** An entry the loop accepts, and an entry it passes over. *)
Definition passes_filters (env : Env) (e : Entry) (ident : string)
    (bits : PyVal) (endness : string) : Prop :=
  found_it env (e_regexes e) ident = Ok true
  ∧ bits_and_endness_fit e bits endness.

Definition passed_over (env : Env) (e : Entry) (ident : string)
    (bits : PyVal) (endness : string) : Prop :=
  found_it env (e_regexes e) ident = Ok false
  ∨ (found_it env (e_regexes e) ident = Ok true
     ∧ ¬ bits_and_endness_fit e bits endness).

(** [a = sample_mips(Endness.BE)] with the instruction-lifting backend on
    an empty heap, then [c = a.copy()]: the two instances and the worlds
    after each step. *)
Definition sample_blob_a : Arch :=
  constructed pyvex_env sample_mips Endness.BE (Some 1%nat) (None, None).

Definition world_after_a : World :=
  exec (Arch_init pyvex_env sample_mips Endness.BE) empty_world.

Definition sample_blob_c : Arch :=
  constructed pyvex_env sample_mips Endness.BE (Some 4%nat) (None, None).

Definition world_after_c : World :=
  exec (Arch_copy pyvex_env sample_blob_a) world_after_a.

(** A register file as a function from names to values, with the two
    capabilities the state-transfer methods use. *)
Definition regfile_load (state : string → Z) (reg : string) : Z := state reg.

Definition regfile_store (state : string → Z) (reg : string) (val : Z)
  : string → Z :=
  fun r => if String.eqb r reg then val else state r.

(** ** A registry with earlier entries

    Two entries that [arch_from_id("foo32")] passes over, the first for
    its pattern and the second for its bit-width, and on top of them the
    entries A = (["^foo"], 32, Endness.LE, sample_mips) and
    B = (["^foo"], 32, "any", sample_keyed_by_name) in either order. *)
Definition world_before_A : World :=
  exec (register_arch bare_env (PList [PStr "^foo"]) (PInt 64)
          (PStr Endness.LE) sample_x86)
    (exec (register_arch bare_env (PList [PStr "^bar"]) (PInt 32)
             (PStr Endness.LE) Arch_class) empty_world).

Definition world_A_first : World :=
  exec (register_arch bare_env (PList [PStr "^foo"]) (PInt 32)
          (PStr Endness.LE) sample_mips) world_before_A.

Definition world_A_then_B : World :=
  exec (register_arch bare_env (PList [PStr "^foo"]) (PInt 32)
          (PStr "any") sample_keyed_by_name) world_A_first.

Definition world_B_first : World :=
  exec (register_arch bare_env (PList [PStr "^foo"]) (PInt 32)
          (PStr "any") sample_keyed_by_name) world_before_A.

Definition world_B_then_A : World :=
  exec (register_arch bare_env (PList [PStr "^foo"]) (PInt 32)
          (PStr Endness.LE) sample_mips) world_B_first.

(** * Properties *)

(** ** Bytes and [reverse_ends] *)

Lemma byte_to_Z_range (b : byte) : 0 <= byte_to_Z b < 256.
Proof.
  unfold byte_to_Z. pose proof (Byte.to_N_bounded b) as Hb. lia.
Qed.

Lemma Z_to_byte_spec (z : Z) (b : byte) :
  z mod 256 = byte_to_Z b → Z_to_byte z = b.
Proof.
  intros Hz. unfold Z_to_byte. rewrite Hz. unfold byte_to_Z.
  rewrite N2Z.id, Byte.of_to_N. reflexivity.
Qed.

Lemma le32_range (a b c d : byte) : 0 <= le32 a b c d < 4294967296.
Proof.
  unfold le32.
  pose proof (byte_to_Z_range a). pose proof (byte_to_Z_range b).
  pose proof (byte_to_Z_range c). pose proof (byte_to_Z_range d). lia.
Qed.

Lemma be32_le32 (a b c d : byte) : be32 (le32 a b c d) = [d; c; b; a].
Proof.
  unfold be32, le32.
  pose proof (byte_to_Z_range a). pose proof (byte_to_Z_range b).
  pose proof (byte_to_Z_range c). pose proof (byte_to_Z_range d).
  repeat f_equal; apply Z_to_byte_spec;
    Z.div_mod_to_equations; lia.
Qed.

Lemma swap_groups4_length (fuel : nat) (s : list byte) :
  length (swap_groups4 fuel s) = length s.
Proof.
  revert s. induction fuel as [|fuel IH]; intros s; [reflexivity|].
  destruct s as [|a [|b [|c [|d s']]]]; simpl; try reflexivity.
  rewrite IH. reflexivity.
Qed.

Lemma unpack_pack_groups (n fuel : nat) (s : list byte) :
  length s = (4 * n)%nat → (n ≤ fuel)%nat →
  ∃ xs, struct_unpack_le n s = Some xs
        ∧ struct_pack_be xs = Some (swap_groups4 fuel s).
Proof.
  revert fuel s. induction n as [|n IH]; intros fuel s Hlen Hfuel.
  - destruct s; [|discriminate]. exists []. split; [reflexivity|].
    destruct fuel; reflexivity.
  - destruct s as [|a [|b [|c [|d s']]]]; simpl in Hlen; try lia.
    destruct fuel as [|fuel]; [lia|].
    destruct (IH fuel s') as (xs & Hun & Hpk); [lia|lia|].
    exists (le32 a b c d :: xs). split.
    + simpl. rewrite Hun. reflexivity.
    + pose proof (le32_range a b c d) as Hr.
      cbn [struct_pack_be].
      replace (Z.leb 0 (le32 a b c d)) with true by (symmetry; apply Z.leb_le; lia).
      replace (Z.ltb (le32 a b c d) 4294967296) with true
        by (symmetry; apply Z.ltb_lt; lia).
      cbn [andb]. rewrite Hpk, be32_le32. reflexivity.
Qed.

(** On a buffer whose length is a multiple of four, [reverse_ends] returns
    the buffer with every group of four bytes reversed. *)
Lemma reverse_ends_groups (s : list byte) :
  (length s mod 4 = 0)%nat →
  reverse_ends s = Ok (reversed_in_groups_of_4 s).
Proof.
  intros Hmod. unfold reverse_ends, reversed_in_groups_of_4.
  destruct (unpack_pack_groups (length s / 4) (length s) s) as (xs & Hun & Hpk).
  - pose proof (Nat.div_mod_eq (length s) 4). lia.
  - pose proof (Nat.div_mod_eq (length s) 4). lia.
  - rewrite Hun, Hpk. reflexivity.
Qed.

(** Otherwise [struct.unpack] rejects the buffer. *)
Lemma struct_unpack_le_length (n : nat) (s : list byte) (xs : list Z) :
  struct_unpack_le n s = Some xs → length s = (4 * n)%nat.
Proof.
  revert s xs. induction n as [|n IH]; intros s xs H.
  - destruct s; [reflexivity|discriminate].
  - destruct s as [|a [|b [|c [|d s']]]]; simpl in H; try discriminate.
    destruct (struct_unpack_le n s') eqn:E; [|discriminate].
    apply IH in E. simpl. lia.
Qed.

Lemma reverse_ends_misaligned (s : list byte) :
  (length s mod 4 ≠ 0)%nat → reverse_ends s = Raise struct_error.
Proof.
  intros Hmod. unfold reverse_ends.
  destruct (struct_unpack_le (length s / 4) s) eqn:E; [|reflexivity].
  apply struct_unpack_le_length in E.
  pose proof (Nat.div_mod_eq (length s) 4). lia.
Qed.

Lemma swap_groups4_involutive (fuel : nat) (s : list byte) :
  swap_groups4 fuel (swap_groups4 fuel s) = s.
Proof.
  revert s. induction fuel as [|fuel IH]; intros s; [reflexivity|].
  destruct s as [|a [|b [|c [|d s']]]]; simpl; try reflexivity.
  rewrite IH. reflexivity.
Qed.

Lemma reversed_in_groups_of_4_involutive (s : list byte) :
  reversed_in_groups_of_4 (reversed_in_groups_of_4 s) = s.
Proof.
  unfold reversed_in_groups_of_4. rewrite swap_groups4_length.
  apply swap_groups4_involutive.
Qed.

(** C10. For every byte string [s] whose length is a multiple of 4,
    [reverse_ends] returns, and applying it to its own result returns [s]
    again: [reverse_ends(reverse_ends(s)) = s]. *)
Theorem reverse_ends_involution (s : list byte) :
  (length s mod 4 = 0)%nat →
  ∃ t, reverse_ends s = Ok t ∧ reverse_ends t = Ok s.
Proof.
  intros Hmod. exists (reversed_in_groups_of_4 s). split.
  - apply reverse_ends_groups, Hmod.
  - rewrite reverse_ends_groups.
    + rewrite reversed_in_groups_of_4_involutive. reflexivity.
    + unfold reversed_in_groups_of_4. rewrite swap_groups4_length. exact Hmod.
Qed.

Lemma reverse_ends_involution_witness :
  (length [x01; x02; x03; x04; x05; x06; x07; x08] mod 4 = 0)%nat
  ∧ ∃ t, reverse_ends [x01; x02; x03; x04; x05; x06; x07; x08] = Ok t
         ∧ reverse_ends t = Ok [x01; x02; x03; x04; x05; x06; x07; x08].
Proof.
  split; [reflexivity|].
  apply (reverse_ends_involution [x01; x02; x03; x04; x05; x06; x07; x08]).
  reflexivity.
Defined.

Example reverse_ends_example :
  reverse_ends [x01; x02; x03; x04; x05; x06; x07; x08]
  = Ok [x04; x03; x02; x01; x08; x07; x06; x05].
Proof. vm_compute. reflexivity. Qed.

(** ** [Arch.__init__] *)

Section init_facts.
Variable env : Env.

Lemma init_vex_archinfo_total (w : World) :
  ∃ vex w1, init_vex_archinfo env w = (Ok vex, w1) ∧ globals w1 = globals w.
Proof.
  unfold init_vex_archinfo. destruct (_pyvex env) as [pv|].
  - unfold bind, with_heap.
    destruct (alloc_tree (TDict (default_vex_archinfo pv)) (heap w))
      as [[s|l] h] eqn:E; eexists _, _; split; reflexivity.
  - exists None, w. split; reflexivity.
Qed.

Lemma flip_vex_endness_total (vex : option nat) (w : World) :
  ∃ w1, flip_vex_endness env vex w = (Ok tt, w1) ∧ globals w1 = globals w.
Proof.
  unfold flip_vex_endness.
  destruct vex as [l|], (_pyvex env) as [pv|];
    try (exists w; split; reflexivity).
  unfold bind, get_heap. destruct (heap w !! l) as [d|];
    [|exists w; split; reflexivity].
  destruct (bool_decide (d = ∅)); eexists; split; reflexivity.
Qed.

(** An invalid endness is rejected before anything is touched. *)
Lemma Arch_init_invalid (v : Variant) (endness : string) (w : World) :
  endness ∉ [Endness.LE; Endness.BE; Endness.ME] →
  Arch_init env v endness w = (Raise ArchError, w).
Proof.
  intros H. unfold Arch_init. rewrite bool_decide_eq_false_2 by exact H.
  reflexivity.
Qed.

(** When the instruction byte strings can be reversed (needed for
    [Endness.BE] only) and the unicorn block does not raise, the
    constructor returns the instance described by [constructed] and
    leaves the registry and the log alone. *)
Lemma Arch_init_constructed (v : Variant) (endness : string) (w : World)
    (uc : option Z * option (gmap string Z)) :
  endness ∈ [Endness.LE; Endness.BE; Endness.ME] →
  (endness = Endness.BE →
   (length (cls_ret_instruction v) mod 4 = 0)%nat
   ∧ (length (cls_nop_instruction v) mod 4 = 0)%nat) →
  init_unicorn env v endness = Ok uc →
  ∃ vex w1,
    Arch_init env v endness w = (Ok (constructed env v endness vex uc), w1)
    ∧ globals w1 = globals w.
Proof.
  intros Hvalid Hlen Huc. unfold Arch_init.
  rewrite bool_decide_eq_true_2 by exact Hvalid. cbn [negb].
  unfold bind at 1.
  destruct (init_vex_archinfo_total w) as (vex & w1 & -> & Hg1).
  unfold constructed.
  destruct (String.eqb_spec endness Endness.BE) as [Hbe|Hne].
  - destruct (Hlen Hbe) as [Hr Hn].
    destruct (flip_vex_endness_total vex w1) as (w2 & Hflip & Hg2).
    unfold bind, lift, ret. rewrite Hflip.
    rewrite (reverse_ends_groups _ Hr), (reverse_ends_groups _ Hn), Huc.
    exists vex, w2. split; [reflexivity|congruence].
  - unfold bind, lift, ret. rewrite Huc.
    exists vex, w1. split; [reflexivity|exact Hg1].
Qed.

(** A variant without a unicorn mode skips the unicorn block. *)
Lemma init_unicorn_skipped (v : Variant) (endness : string) :
  cls_uc_mode v = None → init_unicorn env v endness = Ok (None, None).
Proof. intros H. unfold init_unicorn. rewrite H. reflexivity. Qed.
End init_facts.

(** Position [i] of the group-reversed string holds the byte that sat at
    the mirrored position of the same aligned group of four. *)
Lemma swap_groups4_lookup (fuel n : nat) (s : list byte) (i : nat) :
  length s = (4 * n)%nat → (n ≤ fuel)%nat → (i < length s)%nat →
  swap_groups4 fuel s !! i = s !! (4 * (i / 4) + 3 - i mod 4)%nat.
Proof.
  revert n s i. induction fuel as [|fuel IH]; intros n s i Hlen Hfuel Hi.
  - assert (n = 0%nat) by lia. subst n. simpl in Hlen. lia.
  - destruct s as [|a [|b [|c [|d s']]]]; simpl in Hlen, Hi; try lia.
    destruct n as [|n]; [lia|].
    destruct i as [|[|[|[|i]]]]; try reflexivity.
    assert (Hidx : (4 * (S (S (S (S i))) / 4) + 3 - S (S (S (S i))) mod 4
                    = S (S (S (S (4 * (i / 4) + 3 - i mod 4)))))%nat).
    { replace (S (S (S (S i)))) with (i + 1 * 4)%nat by lia.
      rewrite Nat.div_add, Nat.Div0.mod_add by lia.
      pose proof (Nat.mod_upper_bound i 4). lia. }
    rewrite Hidx. apply (IH n s' i); lia.
Qed.

Lemma reversed_in_groups_of_4_lookup (s : list byte) (i : nat) :
  (length s mod 4 = 0)%nat → (i < length s)%nat →
  reversed_in_groups_of_4 s !! i = s !! (4 * (i / 4) + 3 - i mod 4)%nat.
Proof.
  intros Hmod Hi. unfold reversed_in_groups_of_4.
  pose proof (Nat.div_mod_eq (length s) 4).
  apply (swap_groups4_lookup _ (length s / 4)); lia.
Qed.

Section init_properties.
Variable env : Env.

Lemma init_unicorn_BE_LE (v : Variant) uc :
  init_unicorn env v Endness.BE = Ok uc →
  ∃ uc', init_unicorn env v Endness.LE = Ok uc'.
Proof.
  unfold init_unicorn. destruct (cls_uc_mode v) as [m|]; [|eauto].
  cbn [String.eqb Endness.BE Endness.LE].
  replace (String.eqb Endness.BE Endness.BE) with true by reflexivity.
  replace (String.eqb Endness.LE Endness.BE) with false by reflexivity.
  destruct (_unicorn env); [|discriminate].
  destruct (fold_left _ _ _); [eauto|discriminate].
Qed.

(** C1 (as the code has it). For every valid endness [e] the constructor
    passes its check, and when the rest of it does not raise (for
    [Endness.BE] the two instruction strings must have lengths that are
    multiples of 4; the unicorn block must succeed) it returns an
    instance whose [memory_endness] and [register_endness] are [e] when
    [e] is [Endness.BE], and are otherwise the values the variant class
    declares; so [Endness.LE] is read back on a class that declares
    little. *)
Theorem Arch_init_endness_readback (v : Variant) (e : string) (w : World)
    (uc : option Z * option (gmap string Z)) :
  e ∈ [Endness.LE; Endness.BE; Endness.ME] →
  (e = Endness.BE →
   (length (cls_ret_instruction v) mod 4 = 0)%nat
   ∧ (length (cls_nop_instruction v) mod 4 = 0)%nat) →
  init_unicorn env v e = Ok uc →
  ∃ a w',
    Arch_init env v e w = (Ok a, w')
    ∧ (e = Endness.BE → memory_endness a = e ∧ register_endness a = e)
    ∧ (e ≠ Endness.BE →
       memory_endness a = cls_memory_endness v
       ∧ register_endness a = cls_register_endness v)
    ∧ (e = Endness.LE →
       cls_memory_endness v = Endness.LE →
       cls_register_endness v = Endness.LE →
       memory_endness a = e ∧ register_endness a = e).
Proof.
  intros Hvalid Hlen Huc.
  destruct (Arch_init_constructed env v e w uc Hvalid Hlen Huc)
    as (vex & w1 & Hinit & _).
  eexists _, _. split; [exact Hinit|].
  cbn [constructed memory_endness register_endness].
  destruct (String.eqb_spec e Endness.BE) as [->|Hne].
  - repeat split; try congruence. all: discriminate.
  - repeat split; try congruence.
Qed.

End init_properties.

(** The base class, asked for middle-endian, is constructed and reports
    little-endian. *)
Lemma Arch_init_middle_reads_little :
  res_map (fun a => (memory_endness a, register_endness a))
          (run (Arch_init bare_env Arch_class Endness.ME) empty_world)
  = Ok (Endness.LE, Endness.LE)
  ∧ ¬ (∃ a w', Arch_init bare_env Arch_class Endness.ME empty_world = (Ok a, w')
               ∧ memory_endness a = Endness.ME
               ∧ register_endness a = Endness.ME).
Proof.
  split; [vm_compute; reflexivity|].
  intros (a & w' & H & Hm & _). vm_compute in H.
  injection H as <- _. vm_compute in Hm. discriminate.
Qed.

Lemma Arch_init_endness_readback_witness :
  ∃ a w',
    Arch_init bare_env Arch_class Endness.BE empty_world = (Ok a, w')
    ∧ (Endness.BE = Endness.BE →
       memory_endness a = Endness.BE ∧ register_endness a = Endness.BE)
    ∧ (Endness.BE ≠ Endness.BE →
       memory_endness a = cls_memory_endness Arch_class
       ∧ register_endness a = cls_register_endness Arch_class)
    ∧ (Endness.BE = Endness.LE →
       cls_memory_endness Arch_class = Endness.LE →
       cls_register_endness Arch_class = Endness.LE →
       memory_endness a = Endness.BE ∧ register_endness a = Endness.BE).
Proof.
  apply (Arch_init_endness_readback bare_env Arch_class Endness.BE empty_world
           (None, None)).
  - apply list_elem_of_further, list_elem_of_here.
  - intros _. split; reflexivity.
  - reflexivity.
Defined.

Example sample_mips_le_constructed :
  Arch_init bare_env sample_mips Endness.LE empty_world
  = (Ok sample_mips_le, empty_world).
Proof. reflexivity. Qed.

Example sample_mips_be_constructed :
  Arch_init bare_env sample_mips Endness.BE empty_world
  = (Ok sample_mips_be, empty_world).
Proof. reflexivity. Qed.

Example sample_mips_be_ret :
  ret_instruction sample_mips_be = [x03; xe0; x00; x08; x00; x20; x08; x25].
Proof. reflexivity. Qed.

(** ** [Arch.__eq__] *)

Lemma Arch_eq_true_iff (a b : Arch) :
  Arch_eq a (OArch b) = true
  ↔ (name a, bits a, memory_endness a) = (name b, bits b, memory_endness b).
Proof.
  unfold Arch_eq. rewrite !andb_true_iff, !bool_decide_eq_true, String.eqb_eq.
  split.
  - intros [[-> ->] ->]. reflexivity.
  - intros [= -> -> ->]. auto.
Qed.

(** C7. [a == b] holds exactly when the (name, bits, memory endness)
    triples agree; two instances of one class with different memory
    endness are unequal; and replacing the blob of either side changes
    nothing ([__eq__] reads neither the attribute nor the heap). *)
Theorem Arch_eq_triple (a b : Arch) :
  (Arch_eq a (OArch b) = true
   ↔ (name a, bits a, memory_endness a) = (name b, bits b, memory_endness b))
  ∧ (cls a = cls b → memory_endness a ≠ memory_endness b →
     Arch_eq a (OArch b) = false)
  ∧ (∀ vex vex',
       Arch_eq (with_vex_archinfo a vex) (OArch (with_vex_archinfo b vex'))
       = Arch_eq a (OArch b)).
Proof.
  pose proof (Arch_eq_true_iff a b) as Hiff.
  split; [exact Hiff|]. split; [|reflexivity].
  intros _ Hne. apply not_true_is_false. intros E.
  apply Hiff in E. congruence.
Qed.

Lemma Arch_eq_triple_witness :
  (Arch_eq sample_mips_le (OArch sample_mips_be) = true
   ↔ (name sample_mips_le, bits sample_mips_le, memory_endness sample_mips_le)
     = (name sample_mips_be, bits sample_mips_be, memory_endness sample_mips_be))
  ∧ Arch_eq sample_mips_le (OArch sample_mips_be) = false
  ∧ (∀ vex vex',
       Arch_eq (with_vex_archinfo sample_mips_le vex)
               (OArch (with_vex_archinfo sample_mips_be vex'))
       = Arch_eq sample_mips_le (OArch sample_mips_be)).
Proof.
  destruct (Arch_eq_triple sample_mips_le sample_mips_be) as (H1 & H2 & H3).
  split; [exact H1|]. split; [|exact H3].
  apply H2; [reflexivity|discriminate].
Defined.

(** ** [Arch.struct_fmt] *)

Lemma unsigned_code_match {A} (z : Z) (q i h b other : A) :
  match z with 64 => q | 32 => i | 16 => h | 8 => b | _ => other end
  = (if Z.eqb z 64 then q else if Z.eqb z 32 then i
     else if Z.eqb z 16 then h else if Z.eqb z 8 then b else other).
Proof.
  destruct z as [|p|p]; try reflexivity.
  do 7 (try destruct p as [p|p|]; try reflexivity).
Qed.

Lemma struct_fmt_unfold (self : Arch) (size : option Z) :
  struct_fmt self size
  = match (match size with None => bits self | Some s => Some s end)
          ≫= unsigned_code with
    | Some c =>
        Ok ((if String.eqb (memory_endness self) Endness.BE then ">" else "<")
            +:+ c)
    | None => Raise ValueError
    end.
Proof.
  unfold struct_fmt.
  destruct (match size with None => bits self | Some s => Some s end) as [z|];
    [|reflexivity].
  rewrite unsigned_code_match. cbn [mbind option_bind]. unfold unsigned_code.
  destruct (String.eqb (memory_endness self) Endness.BE);
    repeat (case_match; try reflexivity).
Qed.

Lemma prefix_mark (m m' : ascii) (c : string) :
  String.prefix (String m "") (String m' "" +:+ c) = true ↔ m = m'.
Proof.
  change (String m' "" +:+ c) with (String m' c).
  destruct c; cbv [String.prefix]; destruct (ascii_dec m m');
    split; congruence.
Qed.

(** C9. [struct_fmt(size)] returns exactly when the width (the argument,
    or [bits] when it is omitted) is 8, 16, 32 or 64, and raises
    [ValueError] for any other width; a returned format is the byte-order
    mark followed by the letter of the width, the mark being [>] exactly
    when the memory endness is big; 32 bits on a little-endian instance
    gives [<I]. *)
Theorem struct_fmt_widths (self : Arch) (size : option Z) :
  let width := match size with None => bits self | Some s => Some s end in
  ((∃ fmt, struct_fmt self size = Ok fmt)
   ↔ width ∈ [Some 8; Some 16; Some 32; Some 64])
  ∧ (width ∉ [Some 8; Some 16; Some 32; Some 64] →
     struct_fmt self size = Raise ValueError)
  ∧ (∀ fmt, struct_fmt self size = Ok fmt →
       (String.prefix ">" fmt = true ↔ memory_endness self = Endness.BE)
       ∧ (String.prefix "<" fmt = true ↔ memory_endness self ≠ Endness.BE)
       ∧ ∃ c, width ≫= unsigned_code = Some c
              ∧ fmt = (if String.eqb (memory_endness self) Endness.BE
                       then ">" else "<") +:+ c)
  ∧ (memory_endness self = Endness.LE → struct_fmt self (Some 32) = Ok "<I").
Proof.
  intros width.
  assert (Hcode : is_Some (width ≫= unsigned_code)
                  ↔ width ∈ [Some 8; Some 16; Some 32; Some 64]).
  { destruct width as [z|]; cbn [mbind option_bind].
    - unfold unsigned_code.
      destruct (Z.eqb_spec z 64) as [->|?]; [split; [set_solver|eauto]|].
      destruct (Z.eqb_spec z 32) as [->|?]; [split; [set_solver|eauto]|].
      destruct (Z.eqb_spec z 16) as [->|?]; [split; [set_solver|eauto]|].
      destruct (Z.eqb_spec z 8) as [->|?]; [split; [set_solver|eauto]|].
      split; [intros [? ?]; discriminate|].
      rewrite !elem_of_cons, elem_of_nil. intros [?|[?|[?|[?|[]]]]]; congruence.
    - split; [intros [? ?]; discriminate|].
      rewrite !elem_of_cons, elem_of_nil. intros [?|[?|[?|[?|[]]]]]; discriminate. }
  pose proof (struct_fmt_unfold self size) as Hfmt. fold width in Hfmt.
  split; [|split; [|split]].
  - rewrite <- Hcode, Hfmt.
    destruct (width ≫= unsigned_code) as [c|]; split; eauto.
    + intros [fmt ?]; discriminate.
    + intros [c ?]; discriminate.
  - intros Hnot. rewrite Hfmt.
    destruct (width ≫= unsigned_code) eqn:E; [|reflexivity].
    exfalso. apply Hnot, Hcode. eauto.
  - intros fmt Hok. rewrite Hfmt in Hok.
    destruct (width ≫= unsigned_code) as [c|]; [|discriminate].
    injection Hok as <-.
    destruct (String.eqb_spec (memory_endness self) Endness.BE) as [Hbe|Hne].
    + rewrite !prefix_mark. repeat split; try done. eauto.
    + rewrite !prefix_mark. repeat split; try done. eauto.
  - intros Hle. unfold struct_fmt. rewrite Hle. reflexivity.
Qed.

Lemma struct_fmt_widths_witness :
  struct_fmt sample_mips_be (Some 7) = Raise ValueError
  ∧ struct_fmt sample_mips_le (Some 32) = Ok "<I".
Proof.
  split.
  - apply (struct_fmt_widths sample_mips_be (Some 7)).
    rewrite !elem_of_cons, elem_of_nil. intros [?|[?|[?|[?|[]]]]]; discriminate.
  - apply (struct_fmt_widths sample_mips_le None). reflexivity.
Defined.

Example struct_fmt_default_width :
  struct_fmt sample_mips_be None = Ok ">I".
Proof. reflexivity. Qed.

(** ** Tag translation *)

(** C4. For an integer tag that the translation table does not hold,
    [translate_dynamic_tag] and [translate_symbol_type] return the tag
    itself and raise nothing; the only effect is one record handed to the
    logger. *)
Theorem translate_unknown_tag (self : Arch) (n : Z) (w : World) :
  (cls_dynamic_tag_translation (cls self) !! inl n = None →
   ∃ w', translate_dynamic_tag self (inl n) w = (Ok (inl n), w')
         ∧ heap w' = heap w ∧ arch_id_map w' = arch_id_map w
         ∧ all_arches w' = all_arches w
         ∧ log w' = log w ++ [{| lr_msg :=
                                   "Please look up and add dynamic tag type %#x for %s";
                                 lr_tag := n; lr_arch := name self |}])
  ∧ (cls_symbol_type_translation (cls self) !! inl n = None →
     ∃ w', translate_symbol_type self (inl n) w = (Ok (inl n), w')
           ∧ heap w' = heap w ∧ arch_id_map w' = arch_id_map w
           ∧ all_arches w' = all_arches w
           ∧ log w' = log w ++ [{| lr_msg :=
                                     "Please look up and add symbol type %#x for %s";
                                   lr_tag := n; lr_arch := name self |}]).
Proof.
  split; intros Hmiss.
  - unfold translate_dynamic_tag. rewrite Hmiss.
    eexists. split; [reflexivity|]. repeat split.
  - unfold translate_symbol_type. rewrite Hmiss.
    eexists. split; [reflexivity|]. repeat split.
Qed.

Lemma translate_unknown_tag_witness :
  run (translate_dynamic_tag sample_mips_le (inl 1879048211)) empty_world
  = Ok (inl 1879048211)
  ∧ run (translate_symbol_type sample_mips_le (inl 13)) empty_world
    = Ok (inl 13).
Proof.
  destruct (translate_unknown_tag sample_mips_le 1879048211 empty_world)
    as [Hd _].
  destruct (translate_unknown_tag sample_mips_le 13 empty_world) as [_ Hs].
  unfold run. split.
  - destruct Hd as (w' & -> & _); reflexivity.
  - destruct Hs as (w' & -> & _); reflexivity.
Defined.

(** A tag the table knows is translated and nothing is logged. *)
Example translate_known_tag :
  translate_dynamic_tag sample_mips_le (inl 1879048193) empty_world
  = (Ok (inr "DT_MIPS_RLD_VERSION"), empty_world).
Proof. reflexivity. Qed.

(** ** The register-size table *)

Section register_size_names.
Variable nm : option string.
Variable register_names : gmap PyAtom string.

Local Abbreviation step := (register_size_names_step nm register_names).

Lemma step_generic_alias tbl k v :
  generic_alias nm k = true → step tbl (k, v) = tbl.
Proof.
  unfold register_size_names_step, generic_alias. intros ->. reflexivity.
Qed.

Lemma step_unclaimed tbl k v :
  generic_alias nm k = false → tbl !! v = None →
  step tbl (k, v) = <[v := k]> tbl.
Proof.
  unfold register_size_names_step, generic_alias, has_key.
  intros -> ->. reflexivity.
Qed.

Lemma step_collision_kept tbl k v first :
  generic_alias nm k = false → tbl !! v = Some first →
  register_names !! inr k = None →
  step tbl (k, v) = tbl.
Proof.
  unfold register_size_names_step, generic_alias, has_key.
  intros -> -> ->. reflexivity.
Qed.

Lemma step_collision_replaced tbl k v first :
  generic_alias nm k = false → tbl !! v = Some first →
  is_Some (register_names !! inr k) →
  step tbl (k, v) = <[v := k]> tbl.
Proof.
  unfold register_size_names_step, generic_alias, has_key.
  intros -> -> [name' ->]. reflexivity.
Qed.

(** What one iteration does to the slot [v]. *)
Lemma step_lookup tbl k v' v :
  step tbl (k, v') !! v
  = if bool_decide (v' = v) && negb (generic_alias nm k)
    then winner_step register_names (tbl !! v) k
    else tbl !! v.
Proof.
  destruct (generic_alias nm k) eqn:Hg.
  - rewrite step_generic_alias by exact Hg. rewrite andb_false_r. reflexivity.
  - rewrite andb_true_r. case_bool_decide as Hv.
    + subst v'. unfold winner_step, has_key.
      destruct (tbl !! v) as [first|] eqn:Hcur.
      * destruct (register_names !! inr k) as [name'|] eqn:Hk.
        -- rewrite (step_collision_replaced tbl k v first) by eauto.
           apply lookup_insert_eq.
        -- rewrite (step_collision_kept tbl k v first) by eauto. exact Hcur.
      * rewrite step_unclaimed by assumption. apply lookup_insert_eq.
    + destruct (tbl !! v') as [first|] eqn:Hcur.
      * destruct (register_names !! inr k) as [name'|] eqn:Hk.
        -- rewrite (step_collision_replaced tbl k v' first) by eauto.
           apply lookup_insert_ne, Hv.
        -- rewrite (step_collision_kept tbl k v' first) by eauto. reflexivity.
      * rewrite step_unclaimed by assumption. apply lookup_insert_ne, Hv.
Qed.

Lemma fold_step_lookup registers tbl v :
  fold_left step registers tbl !! v
  = fold_left (winner_step register_names) (claimants nm registers v)
              (tbl !! v).
Proof.
  revert tbl. induction registers as [|[k v'] registers IH]; intros tbl.
  - reflexivity.
  - cbn [fold_left]. rewrite IH, step_lookup. unfold claimants.
    cbn [List.filter fst snd].
    destruct (bool_decide (v' = v) && negb (generic_alias nm k));
      reflexivity.
Qed.

(** No generic alias is ever stored. *)
Lemma fold_step_no_alias registers tbl :
  (∀ v k, tbl !! v = Some k → generic_alias nm k = false) →
  ∀ v k, fold_left step registers tbl !! v = Some k →
         generic_alias nm k = false.
Proof.
  revert tbl. induction registers as [|[k' v'] registers IH]; intros tbl Htbl.
  - exact Htbl.
  - cbn [fold_left]. apply IH. intros v k. rewrite step_lookup.
    destruct (bool_decide (v' = v) && negb (generic_alias nm k')) eqn:Hc.
    + apply andb_true_iff in Hc as [_ Hg]. apply negb_true_iff in Hg.
      unfold winner_step. destruct (tbl !! v) as [first|] eqn:Hcur.
      * destruct (has_key (inr k') register_names); intros [= <-];
          [exact Hg|eauto].
      * intros [= <-]. exact Hg.
    + apply Htbl.
Qed.
End register_size_names.

(** Whatever [Arch.__init__] returns is the instance [constructed]
    describes, and the conditions of [Arch_init_constructed] held. *)
Lemma Arch_init_inv (env : Env) (v : Variant) (e : string) (w w' : World)
    (a : Arch) :
  Arch_init env v e w = (Ok a, w') →
  e ∈ [Endness.LE; Endness.BE; Endness.ME]
  ∧ (e = Endness.BE →
     (length (cls_ret_instruction v) mod 4 = 0)%nat
     ∧ (length (cls_nop_instruction v) mod 4 = 0)%nat)
  ∧ ∃ vex uc, init_unicorn env v e = Ok uc
              ∧ a = constructed env v e vex uc
              ∧ globals w' = globals w.
Proof.
  intros Hinit.
  destruct (decide (e ∈ [Endness.LE; Endness.BE; Endness.ME])) as [Hvalid|Hbad];
    [|rewrite Arch_init_invalid in Hinit by exact Hbad; discriminate].
  assert (Hlen : e = Endness.BE →
                 (length (cls_ret_instruction v) mod 4 = 0)%nat
                 ∧ (length (cls_nop_instruction v) mod 4 = 0)%nat).
  { intros ->. unfold Arch_init in Hinit.
    rewrite bool_decide_eq_true_2 in Hinit by exact Hvalid.
    cbn [negb] in Hinit. unfold bind at 1 in Hinit.
    destruct (init_vex_archinfo_total env w) as (vex & w1 & Hvex & _).
    rewrite Hvex in Hinit.
    replace (String.eqb Endness.BE Endness.BE) with true in Hinit by reflexivity.
    destruct (flip_vex_endness_total env vex w1) as (w2 & Hflip & _).
    unfold bind, lift in Hinit. rewrite Hflip in Hinit.
    destruct (decide (length (cls_ret_instruction v) mod 4 = 0)%nat) as [Hr|Hr];
      [|rewrite (reverse_ends_misaligned _ Hr) in Hinit; discriminate].
    rewrite (reverse_ends_groups _ Hr) in Hinit.
    destruct (decide (length (cls_nop_instruction v) mod 4 = 0)%nat) as [Hn|Hn];
      [|rewrite (reverse_ends_misaligned _ Hn) in Hinit; discriminate].
    split; assumption. }
  split; [exact Hvalid|]. split; [exact Hlen|].
  destruct (init_unicorn env v e) as [uc|x] eqn:Huc.
  - destruct (Arch_init_constructed env v e w uc Hvalid Hlen Huc)
      as (vex & w1 & Hok & Hg).
    rewrite Hok in Hinit. injection Hinit as <- <-. eauto.
  - exfalso. unfold Arch_init in Hinit.
    rewrite bool_decide_eq_true_2 in Hinit by exact Hvalid.
    cbn [negb] in Hinit. unfold bind at 1 in Hinit.
    destruct (init_vex_archinfo_total env w) as (vex & w1 & Hvex & _).
    rewrite Hvex in Hinit.
    destruct (String.eqb_spec e Endness.BE) as [Hbe|Hne].
    + destruct (Hlen Hbe) as [Hr Hn].
      destruct (flip_vex_endness_total env vex w1) as (w2 & Hflip & _).
      unfold bind, lift, ret in Hinit. rewrite Hflip in Hinit.
      rewrite (reverse_ends_groups _ Hr), (reverse_ends_groups _ Hn), Huc
        in Hinit. discriminate.
    + unfold bind, lift, ret in Hinit. rewrite Huc in Hinit. discriminate.
Qed.

(** C5 (as the code has it). The table of an instance is the fold of the
    loop over the forward table in its order.  A name that is one of
    [bp], [sp], [ip] on an X86 or AMD64 class is passed over.  For any
    other name, a slot already claimed keeps its first winner when the new
    name is not a key of [register_names], and is handed to the new name
    when it is such a key.  Hence each slot holds the [winner] of its
    [claimants], and on X86 and AMD64 no slot holds [bp], [sp] or [ip]. *)
Theorem register_size_names_derivation (env : Env) (v : Variant) (e : string)
    (w w' : World) (a : Arch) :
  Arch_init env v e w = (Ok a, w') →
  let nm := cls_name v in
  let rn := cls_register_names v in
  let step := register_size_names_step nm rn in
  register_size_names a = fold_left step (cls_registers v) ∅
  ∧ (∀ tbl k slot, generic_alias nm k = true → step tbl (k, slot) = tbl)
  ∧ (∀ tbl k slot, generic_alias nm k = false → tbl !! slot = None →
       step tbl (k, slot) = <[slot := k]> tbl)
  ∧ (∀ tbl k slot first,
       generic_alias nm k = false → tbl !! slot = Some first →
       (rn !! inr k = None → step tbl (k, slot) = tbl)
       ∧ (is_Some (rn !! inr k) → step tbl (k, slot) = <[slot := k]> tbl))
  ∧ (∀ slot, register_size_names a !! slot
             = winner rn (claimants nm (cls_registers v) slot))
  ∧ (nm ∈ [Some "X86"; Some "AMD64"] →
     ∀ slot k, register_size_names a !! slot = Some k →
               k ∉ ["bp"; "sp"; "ip"]).
Proof.
  intros Hinit nm rn step.
  apply Arch_init_inv in Hinit as (_ & _ & vex & uc & _ & -> & _).
  cbn [constructed register_size_names]. unfold build_register_size_names.
  fold nm rn step.
  split; [reflexivity|].
  split; [intros; by apply step_generic_alias|].
  split; [intros; by apply step_unclaimed|].
  split.
  { intros tbl k slot first Hg Hcur. split; intros Hk.
    - by apply (step_collision_kept nm rn tbl k slot first).
    - by apply (step_collision_replaced nm rn tbl k slot first). }
  split.
  { intros slot. unfold step. rewrite fold_step_lookup. reflexivity. }
  intros Hnm slot k Hlook Hin.
  apply (fold_step_no_alias nm rn) in Hlook; [|intros ? ?; by rewrite lookup_empty].
  unfold generic_alias in Hlook.
  rewrite (bool_decide_eq_true_2 _ Hnm), (bool_decide_eq_true_2 _ Hin) in Hlook.
  discriminate.
Qed.

Lemma register_size_names_derivation_witness :
  register_size_names sample_mips_le !! (8, 4) = Some "v0"
  ∧ ∀ slot k, register_size_names
                (constructed bare_env sample_x86 Endness.LE None (None, None))
              !! slot = Some k →
              k ∉ ["bp"; "sp"; "ip"].
Proof.
  split.
  - pose proof (register_size_names_derivation bare_env sample_mips Endness.LE
                  empty_world empty_world sample_mips_le eq_refl)
      as (_ & _ & _ & _ & H & _).
    rewrite H. vm_compute. reflexivity.
  - apply (register_size_names_derivation bare_env sample_x86 Endness.LE
             empty_world empty_world _ eq_refl).
    apply list_elem_of_here.
Defined.

Example sample_x86_slots :
  let tbl := build_register_size_names sample_x86 in
  tbl !! (24, 4) = Some "esp" ∧ tbl !! (28, 4) = Some "ebp"
  ∧ tbl !! (68, 4) = Some "eip".
Proof. vm_compute. repeat split. Qed.

(** A register name that is a key of [register_names] takes the slot from
    the first winner, where the specification's wording keeps the first
    winner. *)
Lemma register_size_names_key_replaces :
  build_register_size_names sample_keyed_by_name !! (60, 4) = Some "sp"
  ∧ spec_register_size_names sample_keyed_by_name !! (60, 4) = Some "r13"
  ∧ build_register_size_names sample_keyed_by_name
    ≠ spec_register_size_names sample_keyed_by_name.
Proof.
  assert (H1 : build_register_size_names sample_keyed_by_name !! (60, 4)
               = Some "sp") by (vm_compute; reflexivity).
  assert (H2 : spec_register_size_names sample_keyed_by_name !! (60, 4)
               = Some "r13") by (vm_compute; reflexivity).
  split; [exact H1|]. split; [exact H2|].
  intros Heq. rewrite Heq, H2 in H1. discriminate.
Qed.

(** ** [register_arch] *)

Section registry.
Variable env : Env.

Lemma check_regexes_world (rxs : list PyVal) (w : World) :
  snd (check_regexes env rxs w) = w.
Proof.
  induction rxs as [|rx rxs IH]; [reflexivity|].
  cbn [check_regexes]. unfold bind.
  destruct rx as [|z|s|src|l]; cbn [check_regex]; try reflexivity.
  - destruct (re_compiles env s); [exact IH|reflexivity].
  - exact IH.
Qed.


(** A call with a fixed endness either fails before the append, or
    appends the tuple and then runs the constructor in that world. *)
Lemma register_arch_fixed (rxs : list PyVal) (b : Z) (e : string)
    (my_arch : Variant) (w : World) :
  e ≠ "any" →
  fst (check_regexes env rxs w) = Ok tt →
  register_arch env (PList rxs) (PInt b) (PStr e) my_arch w
  = match Arch_init env my_arch e (registered (entry_of rxs b e my_arch) w) with
    | (Ok a, w') => all_arches_append a w'
    | (Raise x, w') => (Raise x, w')
    end.
Proof.
  intros Hne Hrx. unfold register_arch. unfold bind at 1.
  pose proof (check_regexes_world rxs w) as Hw.
  destruct (check_regexes env rxs w) as [r w0]. cbn in Hrx, Hw. subst r w0.
  unfold bind at 1. cbn [arch_id_map_append].
  apply String.eqb_neq in Hne. rewrite Hne. reflexivity.
Qed.

Lemma register_arch_any (rxs : list PyVal) (b : Z)
    (my_arch : Variant) (w : World) :
  fst (check_regexes env rxs w) = Ok tt →
  register_arch env (PList rxs) (PInt b) (PStr "any") my_arch w
  = match Arch_init env my_arch Endness.BE
            (registered (entry_of rxs b "any" my_arch) w) with
    | (Ok be, w1) =>
        match Arch_init env my_arch Endness.LE (snd (all_arches_append be w1)) with
        | (Ok le, w2) => all_arches_append le w2
        | (Raise x, w2) => (Raise x, w2)
        end
    | (Raise x, w1) => (Raise x, w1)
    end.
Proof.
  intros Hrx. unfold register_arch. unfold bind at 1.
  pose proof (check_regexes_world rxs w) as Hw.
  destruct (check_regexes env rxs w) as [r w0]. cbn in Hrx, Hw. subst r w0.
  unfold bind at 1. cbn [arch_id_map_append].
  replace (String.eqb "any" "any") with true by reflexivity.
  unfold bind.
  destruct (Arch_init env my_arch Endness.BE _) as [[be|x] w1]; reflexivity.
Qed.

Lemma register_arch_checks_regexes (rxs : list PyVal) (bits endness : PyVal)
    (my_arch : Variant) (w w' : World) :
  register_arch env (PList rxs) bits endness my_arch w = (Ok tt, w') →
  fst (check_regexes env rxs w) = Ok tt.
Proof.
  unfold register_arch. unfold bind at 1.
  destruct (check_regexes env rxs w) as [[[]|x] w0]; [reflexivity|discriminate].
Qed.
End registry.

(** ** [arch_from_id] *)

Section identification.
Variable env : Env.

(** What the loop does with one entry: a declined entry hands over to
    the rest of the list, anything else ends the loop. *)
Lemma scan_arch_id_map_cons (e : Entry) (entries : list Entry)
    (ident : string) (bits : PyVal) (endness : string) :
  scan_arch_id_map env (e :: entries) ident bits endness
  = match scan_arch_id_map env [e] ident bits endness with
    | Ok None => scan_arch_id_map env entries ident bits endness
    | r => r
    end.
Proof.
  cbn [scan_arch_id_map].
  destruct (found_it env (e_regexes e) ident) as [[|]|x]; try reflexivity.
  destruct (py_truthy bits && bits_differ bits (e_bits e)); [reflexivity|].
  destruct (String.eqb (e_endness e) "any" || String.eqb endness (e_endness e)
            || String.eqb endness "unsure"); reflexivity.
Qed.

(** The first entry that is not declined decides the result, whatever
    follows it. *)
Lemma scan_arch_id_map_first (pre rest : list Entry) (e : Entry)
    (ident : string) (bits : PyVal) (endness : string) (r : Variant * string) :
  Forall (fun e' => scan_arch_id_map env [e'] ident bits endness = Ok None) pre →
  scan_arch_id_map env [e] ident bits endness = Ok (Some r) →
  scan_arch_id_map env (pre ++ e :: rest) ident bits endness = Ok (Some r).
Proof.
  intros Hpre He. induction Hpre as [|e' pre He' _ IH].
  - cbn [app]. rewrite scan_arch_id_map_cons, He. reflexivity.
  - cbn [app]. rewrite scan_arch_id_map_cons, He'. exact IH.
Qed.



End identification.

(** With an explicit big-endian hint A declines and B is taken. *)
Example arch_from_id_big_hint :
  res_map (fun a => (name a, memory_endness a))
          (run (arch_from_id bare_env "foo32" "big" (PStr "")) world_after_B)
  = Ok (Some "ARMEL", Endness.BE).
Proof. vm_compute. reflexivity. Qed.

(** ** [register_arch] and a failing constructor *)

(** The constructor never touches the registry, whether it returns or
    raises. *)
Lemma Arch_init_globals (env : Env) (v : Variant) (e : string) (w : World) :
  globals (snd (Arch_init env v e w)) = globals w.
Proof.
  unfold Arch_init.
  destruct (bool_decide (e ∈ [Endness.LE; Endness.BE; Endness.ME]));
    [|reflexivity].
  cbn [negb]. unfold bind at 1.
  destruct (init_vex_archinfo_total env w) as (vex & w1 & -> & Hg1).
  rewrite <- Hg1. unfold bind at 1.
  destruct (String.eqb e Endness.BE).
  - unfold bind at 1.
    destruct (flip_vex_endness_total env vex w1) as (w2 & -> & Hg2).
    rewrite <- Hg2. unfold bind, lift, ret.
    destruct (reverse_ends (cls_ret_instruction v)); [|reflexivity].
    destruct (reverse_ends (cls_nop_instruction v)); [|reflexivity].
    destruct (init_unicorn env v e); reflexivity.
  - unfold bind, lift, ret. destruct (init_unicorn env v e); reflexivity.
Qed.

(** When the constructor raises, [register_arch] raises the same exception
    and the tuple appended before the call stays in [arch_id_map], with no
    instance added to [all_arches]. *)
Lemma register_arch_failed_construction (env : Env) (rxs : list PyVal) (b : Z)
    (e : string) (my_arch : Variant) (w w1 : World) (x : exn) :
  e ≠ "any" →
  fst (check_regexes env rxs w) = Ok tt →
  Arch_init env my_arch e (registered (entry_of rxs b e my_arch) w)
  = (Raise x, w1) →
  register_arch env (PList rxs) (PInt b) (PStr e) my_arch w = (Raise x, w1)
  ∧ arch_id_map w1 = arch_id_map w ++ [entry_of rxs b e my_arch]
  ∧ all_arches w1 = all_arches w.
Proof.
  intros Hne Hrx Hinit.
  rewrite (register_arch_fixed env rxs b e my_arch w Hne Hrx), Hinit.
  split; [reflexivity|].
  pose proof (Arch_init_globals env my_arch e
                (registered (entry_of rxs b e my_arch) w)) as Hg.
  rewrite Hinit in Hg. injection Hg as -> -> _. split; reflexivity.
Qed.

(** C2. [register_arch(["^x86"], 32, "any", sample_x86)] on an empty
    registry: the big-endian construction raises [struct.error] (the
    one-byte instruction strings cannot be reversed), the exception reaches
    the caller, and the registry is not left as it was: [arch_id_map]
    holds the new tuple while [all_arches] holds no instance for it.  The
    same happens with a string that is no endness at all. *)
Theorem register_arch_keeps_entry_after_failure :
  let call := register_arch bare_env (PList [PStr "^x86"]) (PInt 32)
                (PStr "any") sample_x86 in
  run call empty_world = Raise struct_error
  ∧ arch_id_map (exec call empty_world)
    = [entry_of [PStr "^x86"] 32 "any" sample_x86]
  ∧ all_arches (exec call empty_world) = []
  ∧ arch_id_map (exec call empty_world) ≠ arch_id_map empty_world
  ∧ let call' := register_arch bare_env (PList [PStr "^foo"]) (PInt 32)
                   (PStr "bogus") Arch_class in
    run call' empty_world = Raise ArchError
    ∧ arch_id_map (exec call' empty_world)
      = [entry_of [PStr "^foo"] 32 "bogus" Arch_class]
    ∧ all_arches (exec call' empty_world) = [].
Proof.
  cbv zeta.
  assert (H : exec (register_arch bare_env (PList [PStr "^x86"]) (PInt 32)
                      (PStr "any") sample_x86) empty_world
              = registered (entry_of [PStr "^x86"] 32 "any" sample_x86)
                           empty_world) by (vm_compute; reflexivity).
  split; [vm_compute; reflexivity|]. rewrite H.
  split; [reflexivity|]. split; [reflexivity|]. split; [discriminate|].
  assert (H' : exec (register_arch bare_env (PList [PStr "^foo"]) (PInt 32)
                       (PStr "bogus") Arch_class) empty_world
               = registered (entry_of [PStr "^foo"] 32 "bogus" Arch_class)
                            empty_world) by (vm_compute; reflexivity).
  split; [vm_compute; reflexivity|]. rewrite H'. split; reflexivity.
Qed.

(** The entry left behind is live: identification finds it. *)
Example arch_from_id_finds_leftover_entry :
  res_map name
    (run (arch_from_id_default bare_env "x86")
         (exec (register_arch bare_env (PList [PStr "^x86"]) (PInt 32)
                  (PStr "any") sample_x86) empty_world))
  = Ok (Some "X86").
Proof. vm_compute. reflexivity. Qed.

(** ** [Arch.copy] *)

Section copy.
Variable env : Env.

(** What a returning [copy] did: it built a new instance of the same
    class from [self.memory_endness], then put a new dict with the items
    of [self]'s blob at the end of the heap and made it the new
    instance's blob. *)
Lemma Arch_copy_inv (self c : Arch) (w w' : World) :
  Arch_copy env self w = (Ok c, w') →
  ∃ new_arch w1 l d,
    Arch_init env (cls self) (memory_endness self) w = (Ok new_arch, w1)
    ∧ vex_archinfo self = Some l
    ∧ heap w1 !! l = Some d
    ∧ c = with_vex_archinfo new_arch (Some (length (heap w1)))
    ∧ heap w' = heap w1 ++ [d].
Proof.
  unfold Arch_copy. unfold bind at 1.
  destruct (Arch_init env (cls self) (memory_endness self) w)
    as [[new_arch|x] w1] eqn:Hinit; [|discriminate].
  destruct (vex_archinfo self) as [l|]; [|discriminate].
  unfold bind at 1. unfold dict_copy, bind, get_heap.
  destruct (heap w1 !! l) as [d|] eqn:Hl; [|discriminate].
  cbn. intros [= <- <-]. exists new_arch, w1, l, d. repeat split.
  exact Hl.
Qed.

(** The copy of a constructed instance compares equal to it. *)
Lemma Arch_copy_eq (v : Variant) (e : string) (w0 w1 w w' : World)
    (self c : Arch) :
  Arch_init env v e w0 = (Ok self, w1) →
  Arch_copy env self w = (Ok c, w') →
  Arch_eq c (OArch self) = true.
Proof.
  intros Hself Hcopy.
  apply Arch_init_inv in Hself as (_ & _ & vex & uc & _ & -> & _).
  apply Arch_copy_inv in Hcopy as (new_arch & w2 & l & d & Hnew & _ & _ & -> & _).
  apply Arch_init_inv in Hnew as (_ & _ & vex' & uc' & _ & -> & _).
  apply Arch_eq_true_iff. unfold name, bits.
  cbn [constructed with_vex_archinfo cls memory_endness].
  f_equal.
  destruct (String.eqb_spec e Endness.BE) as [->|Hne]; [reflexivity|].
  destruct (String.eqb_spec (cls_memory_endness v) Endness.BE) as [->|];
    reflexivity.
Qed.

(** The copy's blob is a dict of its own holding the same items, so an
    assignment to one of its keys leaves the original's items alone. *)
Lemma Arch_copy_top_level (self c : Arch) (w w' : World) :
  Arch_copy env self w = (Ok c, w') →
  ∃ l l' d,
    vex_archinfo self = Some l ∧ vex_archinfo c = Some l' ∧ l ≠ l'
    ∧ heap w' !! l = Some d ∧ heap w' !! l' = Some d
    ∧ ∀ k v, ∃ h, blob_write (heap w') l' [k] v = Some h
                  ∧ h !! l = Some d ∧ h !! l' = Some (<[k := v]> d).
Proof.
  intros Hcopy.
  apply Arch_copy_inv in Hcopy as (new_arch & w1 & l & d & _ & Hl & Hd & -> & Hh).
  pose proof (lookup_lt_Some _ _ _ Hd) as Hlt.
  exists l, (length (heap w1)), d.
  assert (Hl' : heap w' !! length (heap w1) = Some d).
  { rewrite Hh, lookup_app_r, Nat.sub_diag by lia. reflexivity. }
  assert (Hlw : heap w' !! l = Some d).
  { rewrite Hh, lookup_app_l by exact Hlt. exact Hd. }
  split; [exact Hl|]. split; [reflexivity|]. split; [lia|].
  split; [exact Hlw|]. split; [exact Hl'|].
  intros k v. cbn [blob_write]. rewrite Hl'. eexists. split; [reflexivity|].
  split.
  - rewrite list_lookup_insert_ne by lia. exact Hlw.
  - apply list_lookup_insert_eq. rewrite Hh, length_app. cbn. lia.
Qed.

(** A dict nested in the blob is not duplicated: under every key, the
    original and the copy hold the same value, a reference included. *)
Lemma Arch_copy_shares_values (self c : Arch) (w w' : World) :
  Arch_copy env self w = (Ok c, w') →
  ∃ l l', vex_archinfo self = Some l ∧ vex_archinfo c = Some l'
          ∧ ∀ k, blob_read (heap w') l' [k] = blob_read (heap w') l [k].
Proof.
  intros Hcopy.
  destruct (Arch_copy_top_level self c w w' Hcopy)
    as (l & l' & d & Hl & Hl' & _ & Hd & Hd' & _).
  exists l, l'. split; [exact Hl|]. split; [exact Hl'|].
  intros k. cbn [blob_read]. rewrite Hd, Hd'. reflexivity.
Qed.
End copy.

(** C3. With a blob that nests a dict, [a = sample_mips(Endness.LE)] and
    [c = a.copy()]: [c == a] holds and an assignment to a key of [c]'s blob
    is not seen through [a], but the assignment
    [c.vex_archinfo["hwcache_info"]["num_levels"] = 1] changes what
    [a.vex_archinfo["hwcache_info"]["num_levels"]] reads from 0 to 1: the
    nested dict is shared, the blob is not copied in depth. *)
Theorem Arch_copy_shares_nested_blob :
  run (copy_then_assign ["hwcache_info"; "num_levels"] (VScalar (SInt 1)))
      empty_world
  = Ok (VScalar (SInt 0), VScalar (SInt 1))
  ∧ run (copy_then_assign ["hwcaps"] (VScalar (SInt 1))) empty_world
    = Ok (VScalar (SInt 0), VScalar (SInt 0))
  ∧ run (a <- Arch_init pyvex_env sample_mips Endness.LE ;;
         c <- Arch_copy pyvex_env a ;;
         ret (Arch_eq c (OArch a), vex_archinfo a, vex_archinfo c))
        empty_world
    = Ok (true, Some 1%nat, Some 4%nat).
Proof. repeat split; vm_compute; reflexivity. Qed.

(** * Further properties *)

(** ** [reverse_ends] *)

(** X1. [reverse_ends] returns exactly on buffers whose length is a
    multiple of 4; on every other buffer it raises [struct.error]. *)
Theorem reverse_ends_returns_iff_aligned (s : list byte) :
  ((∃ t, reverse_ends s = Ok t) ↔ (length s mod 4 = 0)%nat)
  ∧ ((length s mod 4 ≠ 0)%nat → reverse_ends s = Raise struct_error).
Proof.
  split; [|apply reverse_ends_misaligned].
  split.
  - intros [t Ht].
    destruct (decide (length s mod 4 = 0)%nat) as [|Hne]; [assumption|].
    rewrite (reverse_ends_misaligned s Hne) in Ht. discriminate.
  - intros Hmod. eexists. apply reverse_ends_groups, Hmod.
Qed.

Lemma reverse_ends_returns_iff_aligned_witness :
  reverse_ends [xc3] = Raise struct_error.
Proof.
  apply (reverse_ends_returns_iff_aligned [xc3]). cbn. lia.
Defined.

(** X2. What [reverse_ends] returns has the length of its argument, and
    its byte at position [i] is the argument's byte at the mirrored
    position of the same aligned group of four. *)
Theorem reverse_ends_positions (s t : list byte) :
  reverse_ends s = Ok t →
  length t = length s
  ∧ ∀ i, (i < length s)%nat → t !! i = s !! (4 * (i / 4) + 3 - i mod 4)%nat.
Proof.
  intros Ht.
  assert (Hmod : (length s mod 4 = 0)%nat).
  { destruct (decide (length s mod 4 = 0)%nat) as [|Hne]; [assumption|].
    rewrite (reverse_ends_misaligned s Hne) in Ht. discriminate. }
  rewrite (reverse_ends_groups s Hmod) in Ht. injection Ht as <-. split.
  - apply swap_groups4_length.
  - intros i Hi. apply reversed_in_groups_of_4_lookup; assumption.
Qed.

Lemma reverse_ends_positions_witness :
  length [x04; x03; x02; x01] = length [x01; x02; x03; x04]
  ∧ ∀ i, (i < length [x01; x02; x03; x04])%nat →
         [x04; x03; x02; x01] !! i
         = [x01; x02; x03; x04] !! (4 * (i / 4) + 3 - i mod 4)%nat.
Proof.
  apply (reverse_ends_positions [x01; x02; x03; x04] [x04; x03; x02; x01]).
  vm_compute. reflexivity.
Defined.

(** ** [Arch.__init__]: when it returns and how it fails *)

Lemma uc_regs_fold_raise (v : Variant) (names : list string) (x : exn) :
  fold_left (uc_regs_step v) names (Raise x) = Raise x.
Proof. induction names as [|r names IH]; [reflexivity|exact IH]. Qed.

(** The constant the unicorn loop finds for register name [r]. *)
Lemma uc_regs_fold_ok (v : Variant) (prefix : string) (names : list string)
    (regs : gmap string Z) :
  cls_uc_prefix v = Some prefix →
  ∃ regs', fold_left (uc_regs_step v) names (Ok regs) = Ok regs'
           ∧ ∀ r, regs' !! r
                  = if bool_decide (r ∈ names)
                    then match cls_uc_const v
                               ≫= (fun consts =>
                                     consts !! (prefix +:+ "REG_" +:+ upper r)) with
                         | Some c => Some c
                         | None => regs !! r
                         end
                    else regs !! r.
Proof.
  intros Hp. revert regs. induction names as [|n names IH]; intros regs.
  - exists regs. split; [reflexivity|]. intros r.
    rewrite bool_decide_eq_false_2 by apply not_elem_of_nil. reflexivity.
  - cbn [fold_left]. unfold uc_regs_step at 2. rewrite Hp.
    set (found := cls_uc_const v
                  ≫= (fun consts => consts !! (prefix +:+ "REG_" +:+ upper n))).
    assert (Hstep : match cls_uc_const v with
                    | Some consts =>
                        match consts !! (prefix +:+ "REG_" +:+ upper n) with
                        | Some c => Ok (<[n := c]> regs)
                        | None => Ok regs
                        end
                    | None => Ok regs
                    end
                    = Ok (match found with
                          | Some c => <[n := c]> regs
                          | None => regs
                          end)).
    { unfold found. destruct (cls_uc_const v) as [consts|]; [|reflexivity].
      cbn. destruct (consts !! _); reflexivity. }
    rewrite Hstep.
    destruct (IH (match found with Some c => <[n := c]> regs | None => regs end))
      as (regs' & Hfold & Hlook).
    exists regs'. split; [exact Hfold|]. intros r. rewrite Hlook.
    destruct (decide (r = n)) as [->|Hne].
    + rewrite (bool_decide_eq_true_2 (n ∈ n :: names)) by apply list_elem_of_here.
      fold found. destruct found as [c|].
      * rewrite lookup_insert_eq. destruct (bool_decide (n ∈ names)); reflexivity.
      * destruct (bool_decide (n ∈ names)); reflexivity.
    + assert (Hmem : bool_decide (r ∈ n :: names) = bool_decide (r ∈ names)).
      { apply bool_decide_ext. rewrite elem_of_cons. tauto. }
      rewrite Hmem.
      assert (Hsame : match found with Some c => <[n := c]> regs | None => regs end
                      !! r = regs !! r).
      { destruct found; [apply lookup_insert_ne; congruence|reflexivity]. }
      rewrite Hsame. reflexivity.
Qed.

Lemma uc_regs_fold_no_prefix (v : Variant) (names : list string)
    (regs : gmap string Z) :
  cls_uc_prefix v = None → names ≠ [] →
  fold_left (uc_regs_step v) names (Ok regs) = Raise TypeError.
Proof.
  intros Hp Hne. destruct names as [|n names]; [done|].
  cbn [fold_left]. unfold uc_regs_step at 2. rewrite Hp.
  apply uc_regs_fold_raise.
Qed.

(** The unicorn block returns exactly when it is skipped, or when the
    module is there if the mode has to be flipped and the prefix is a
    string if there is a register name to look up. *)
Lemma init_unicorn_returns_iff (env : Env) (v : Variant) (e : string) :
  (∃ uc, init_unicorn env v e = Ok uc)
  ↔ cls_uc_mode v = None
    ∨ ((e = Endness.BE → is_Some (_unicorn env))
       ∧ (is_Some (cls_uc_prefix v) ∨ cls_register_names v = ∅)).
Proof.
  unfold init_unicorn. destruct (cls_uc_mode v) as [m|]; [|split; eauto].
  set (names := map snd (map_to_list (cls_register_names v))).
  assert (Hnames : names = [] ↔ cls_register_names v = ∅).
  { unfold names. rewrite <- map_to_list_empty_iff.
    destruct (map_to_list (cls_register_names v)); split; intros; done. }
  assert (Hfold : (∃ regs, fold_left (uc_regs_step v) names (Ok ∅) = Ok regs)
                  ↔ is_Some (cls_uc_prefix v) ∨ cls_register_names v = ∅).
  { destruct (cls_uc_prefix v) as [p|] eqn:Hp.
    - destruct (uc_regs_fold_ok v p names ∅ Hp) as (regs & -> & _).
      split; eauto.
    - split.
      + intros [regs Hregs]. right. apply Hnames.
        destruct names as [|n names'] eqn:En; [reflexivity|].
        rewrite uc_regs_fold_no_prefix in Hregs by done. discriminate.
      + intros [[? [=]]|Hempty]. apply Hnames in Hempty. rewrite Hempty. eauto. }
  split.
  - intros [uc Huc]. right.
    destruct (String.eqb_spec e Endness.BE) as [Hbe|Hne].
    + destruct (_unicorn env) as [u|]; [|discriminate].
      split; [eauto|]. apply Hfold.
      destruct (fold_left _ _ _); [eauto|discriminate].
    + split; [done|]. apply Hfold.
      destruct (fold_left _ _ _); [eauto|discriminate].
  - intros [[=]|[Huc Hrest]]. apply Hfold in Hrest as [regs Hregs].
    destruct (String.eqb_spec e Endness.BE) as [Hbe|Hne].
    + destruct (Huc Hbe) as [u ->]. rewrite Hregs. eauto.
    + rewrite Hregs. eauto.
Qed.




(** X3. [Arch.__init__] returns an instance exactly when the endness is
    one of the three constants, the two instruction strings have lengths
    that are multiples of 4 if the endness is big, and the unicorn block is
    skipped ([uc_mode] is [None]) or can run (the module is imported if the
    endness is big, and [uc_prefix] is a string unless [register_names] is
    empty). *)
Theorem Arch_init_returns_iff (env : Env) (v : Variant) (e : string)
    (w : World) :
  (∃ a w', Arch_init env v e w = (Ok a, w'))
  ↔ e ∈ [Endness.LE; Endness.BE; Endness.ME]
    ∧ (e = Endness.BE →
       (length (cls_ret_instruction v) mod 4 = 0)%nat
       ∧ (length (cls_nop_instruction v) mod 4 = 0)%nat)
    ∧ (cls_uc_mode v = None
       ∨ ((e = Endness.BE → is_Some (_unicorn env))
          ∧ (is_Some (cls_uc_prefix v) ∨ cls_register_names v = ∅))).
Proof.
  rewrite <- init_unicorn_returns_iff. split.
  - intros (a & w' & Hinit).
    apply Arch_init_inv in Hinit as (Hvalid & Hlen & vex & uc & Huc & _).
    eauto.
  - intros (Hvalid & Hlen & uc & Huc).
    destruct (Arch_init_constructed env v e w uc Hvalid Hlen Huc)
      as (vex & w1 & Hok & _). eauto.
Qed.

Lemma Arch_init_returns_iff_witness :
  ∃ a w', Arch_init bare_env sample_mips Endness.BE empty_world = (Ok a, w').
Proof.
  apply (Arch_init_returns_iff bare_env sample_mips Endness.BE empty_world).
  split; [apply list_elem_of_further, list_elem_of_here|].
  split; [intros _; split; reflexivity|].
  left. reflexivity.
Defined.

Lemma init_unicorn_raises (env : Env) (v : Variant) (e : string) (x : exn) :
  init_unicorn env v e = Raise x →
  (x = AttributeError ∧ e = Endness.BE ∧ is_Some (cls_uc_mode v)
   ∧ _unicorn env = None)
  ∨ (x = TypeError ∧ is_Some (cls_uc_mode v) ∧ cls_uc_prefix v = None
     ∧ cls_register_names v ≠ ∅).
Proof.
  unfold init_unicorn. destruct (cls_uc_mode v) as [m|]; [|discriminate].
  assert (Hfold : ∀ y, fold_left (uc_regs_step v)
                         (map snd (map_to_list (cls_register_names v))) (Ok ∅)
                       = Raise y →
                       y = TypeError ∧ cls_uc_prefix v = None
                       ∧ cls_register_names v ≠ ∅).
  { intros y Hy. destruct (cls_uc_prefix v) as [p|] eqn:Hp.
    - destruct (uc_regs_fold_ok v p
                  (map snd (map_to_list (cls_register_names v))) ∅ Hp)
        as (regs & Hok & _).
      rewrite Hok in Hy. discriminate.
    - destruct (map snd (map_to_list (cls_register_names v))) as [|n names] eqn:En.
      + discriminate.
      + rewrite uc_regs_fold_no_prefix in Hy by done. injection Hy as <-.
        split; [reflexivity|]. split; [reflexivity|].
        intros Hempty. rewrite Hempty, map_to_list_empty in En. discriminate. }
  destruct (String.eqb_spec e Endness.BE) as [Hbe|Hne].
  - destruct (_unicorn env) as [u|].
    + destruct (fold_left _ _ _) as [regs|y] eqn:Ef; [discriminate|].
      intros [= <-]. right. destruct (Hfold y eq_refl) as (-> & ? & ?). eauto.
    + intros [= <-]. left. eauto.
  - destruct (fold_left _ _ _) as [regs|y] eqn:Ef; [discriminate|].
    intros [= <-]. right. destruct (Hfold y eq_refl) as (-> & ? & ?). eauto.
Qed.

Lemma Arch_init_raise_cases (env : Env) (v : Variant) (e : string)
    (w w' : World) (x : exn) :
  e ∈ [Endness.LE; Endness.BE; Endness.ME] →
  Arch_init env v e w = (Raise x, w') →
  (e = Endness.BE
   ∧ (reverse_ends (cls_ret_instruction v) = Raise x
      ∨ reverse_ends (cls_nop_instruction v) = Raise x))
  ∨ init_unicorn env v e = Raise x.
Proof.
  intros Hvalid Hinit. unfold Arch_init in Hinit.
  rewrite bool_decide_eq_true_2 in Hinit by exact Hvalid.
  cbn [negb] in Hinit. unfold bind at 1 in Hinit.
  destruct (init_vex_archinfo_total env w) as (vex & w1 & Hvex & _).
  rewrite Hvex in Hinit.
  destruct (String.eqb_spec e Endness.BE) as [Hbe|Hne].
  - destruct (flip_vex_endness_total env vex w1) as (w2 & Hflip & _).
    unfold bind, lift, ret in Hinit. rewrite Hflip in Hinit.
    destruct (reverse_ends (cls_ret_instruction v)) as [r|y];
      [|injection Hinit as <- _; eauto].
    destruct (reverse_ends (cls_nop_instruction v)) as [n|y];
      [|injection Hinit as <- _; eauto].
    destruct (init_unicorn env v e) as [uc|y]; [discriminate|].
    injection Hinit as <- _. eauto.
  - unfold bind, lift, ret in Hinit.
    destruct (init_unicorn env v e) as [uc|y]; [discriminate|].
    injection Hinit as <- _. eauto.
Qed.

(** X4. Every way [Arch.__init__] can fail: [ArchError] for an endness
    that is none of the three constants (nothing has been touched then);
    [struct.error] for a big-endian request on an instruction string whose
    length is not a multiple of 4; [AttributeError] for a big-endian
    request on a class with a unicorn mode when the module is not imported;
    [TypeError] for a class with a unicorn mode, register names and no
    [uc_prefix].  In none of them the registry or the log changes. *)
Theorem Arch_init_failures (env : Env) (v : Variant) (e : string)
    (w w' : World) (x : exn) :
  Arch_init env v e w = (Raise x, w') →
  globals w' = globals w
  ∧ ((x = ArchError ∧ (e ∉ [Endness.LE; Endness.BE; Endness.ME]) ∧ w' = w)
     ∨ (x = struct_error ∧ e = Endness.BE
        ∧ ((length (cls_ret_instruction v) mod 4 ≠ 0)%nat
           ∨ (length (cls_nop_instruction v) mod 4 ≠ 0)%nat))
     ∨ (x = AttributeError ∧ e = Endness.BE ∧ is_Some (cls_uc_mode v)
        ∧ _unicorn env = None)
     ∨ (x = TypeError ∧ is_Some (cls_uc_mode v) ∧ cls_uc_prefix v = None
        ∧ cls_register_names v ≠ ∅)).
Proof.
  intros Hinit. split.
  { pose proof (Arch_init_globals env v e w) as Hg. rewrite Hinit in Hg.
    exact Hg. }
  destruct (decide (e ∈ [Endness.LE; Endness.BE; Endness.ME])) as [Hvalid|Hbad].
  - destruct (Arch_init_raise_cases env v e w w' x Hvalid Hinit)
      as [[Hbe Hrev]|Huc].
    + right. left.
      assert (Hmis : ∀ s, reverse_ends s = Raise x →
                          x = struct_error ∧ (length s mod 4 ≠ 0)%nat).
      { intros s Hs. destruct (decide (length s mod 4 = 0)%nat) as [Hz|Hnz].
        - rewrite (reverse_ends_groups s Hz) in Hs. discriminate.
        - rewrite (reverse_ends_misaligned s Hnz) in Hs. injection Hs as <-.
          split; [reflexivity|exact Hnz]. }
      destruct Hrev as [Hr|Hn].
      * destruct (Hmis _ Hr) as [-> ?]. eauto.
      * destruct (Hmis _ Hn) as [-> ?]. eauto.
    + right. right. apply init_unicorn_raises in Huc. exact Huc.
  - left. rewrite (Arch_init_invalid env v e w Hbad) in Hinit.
    injection Hinit as <- <-. eauto.
Qed.

Lemma Arch_init_failures_witness :
  globals empty_world = globals empty_world
  ∧ ((ArchError = ArchError
      ∧ ("Iend_XE" ∉ [Endness.LE; Endness.BE; Endness.ME])
      ∧ empty_world = empty_world)
     ∨ (ArchError = struct_error ∧ "Iend_XE" = Endness.BE
        ∧ ((length (cls_ret_instruction sample_mips) mod 4 ≠ 0)%nat
           ∨ (length (cls_nop_instruction sample_mips) mod 4 ≠ 0)%nat))
     ∨ (ArchError = AttributeError ∧ "Iend_XE" = Endness.BE
        ∧ is_Some (cls_uc_mode sample_mips) ∧ _unicorn bare_env = None)
     ∨ (ArchError = TypeError ∧ is_Some (cls_uc_mode sample_mips)
        ∧ cls_uc_prefix sample_mips = None
        ∧ cls_register_names sample_mips ≠ ∅)).
Proof.
  apply (Arch_init_failures bare_env sample_mips "Iend_XE" empty_world
           empty_world ArchError).
  reflexivity.
Defined.

(** ** [Arch.__init__] and the heap *)

Lemma Tree_nested_ind (P : Tree → Prop) :
  (∀ s, P (TScalar s)) →
  (∀ kvs, Forall (fun kv => P (snd kv)) kvs → P (TDict kvs)) →
  ∀ t, P t.
Proof.
  intros Hs Hd. fix IH 1. intros [s|kvs]; [apply Hs|].
  apply Hd. induction kvs as [|[k t] kvs IHk]; constructor; [apply IH|exact IHk].
Qed.

(** Evaluating a dict literal only appends to the heap, and the dict it
    denotes is the last object appended. *)
Lemma alloc_tree_extends (t : Tree) (h : Heap) :
  ∃ ext, snd (alloc_tree t h) = h ++ ext
         ∧ match t with
           | TDict _ => ext ≠ []
                        ∧ fst (alloc_tree t h)
                          = VRef (length h + length ext - 1)
           | TScalar s => ext = [] ∧ fst (alloc_tree t h) = VScalar s
           end.
Proof.
  revert h. induction t as [s|kvs IH] using Tree_nested_ind; intros h.
  - exists []. rewrite app_nil_r. repeat split.
  - cbn [alloc_tree].
    set (fields := fix fields (kvs0 : list (string * Tree)) (h0 : Heap)
                     : Dict * Heap := _).
    assert (Hf : ∀ h0, ∃ ext, snd (fields kvs h0) = h0 ++ ext).
    { induction IH as [|[k t] kvs Ht _ IHk]; intros h0.
      - exists []. rewrite app_nil_r. reflexivity.
      - cbn [fields]. destruct (Ht h0) as (ext1 & H1 & _). cbn [snd] in H1.
        destruct (alloc_tree t h0) as [v h1]. cbn [snd] in H1. subst h1.
        destruct (IHk (h0 ++ ext1)) as (ext2 & H2).
        destruct (fields kvs (h0 ++ ext1)) as [d h2]. cbn [snd] in H2 |- *.
        subst h2. exists (ext1 ++ ext2). rewrite app_assoc. reflexivity. }
    destruct (Hf h) as (ext & Hext).
    destruct (fields kvs h) as [d h']. cbn [snd] in Hext. subst h'.
    unfold heap_alloc. cbn [fst snd].
    exists (ext ++ [d]). rewrite app_assoc. split; [reflexivity|].
    split; [intros H; apply app_eq_nil in H as [_ [=]]|].
    rewrite !length_app. cbn [length]. f_equal. lia.
Qed.

Lemma init_vex_archinfo_heap (env : Env) (w : World) :
  ∃ vex w1 ext,
    init_vex_archinfo env w = (Ok vex, w1)
    ∧ heap w1 = heap w ++ ext
    ∧ match vex with
      | Some l => is_Some (_pyvex env)
                  ∧ (length (heap w) ≤ l < length (heap w1))%nat
      | None => _pyvex env = None ∧ ext = []
      end.
Proof.
  unfold init_vex_archinfo. destruct (_pyvex env) as [pv|].
  - unfold bind, with_heap.
    destruct (alloc_tree_extends (TDict (default_vex_archinfo pv)) (heap w))
      as (ext & Hsnd & Hne & Hfst).
    destruct (alloc_tree (TDict (default_vex_archinfo pv)) (heap w)) as [val h1].
    cbn [fst snd] in Hsnd, Hfst. subst val h1.
    eexists _, _, ext. split; [reflexivity|]. split; [reflexivity|].
    split; [eauto|]. cbn [heap]. rewrite length_app.
    destruct ext; [done|]. cbn [length]. lia.
  - exists None, w, []. rewrite app_nil_r. repeat split.
Qed.

Lemma flip_vex_endness_heap (env : Env) (vex : option nat) (w1 : World) :
  ∃ w2, flip_vex_endness env vex w1 = (Ok tt, w2)
        ∧ length (heap w2) = length (heap w1)
        ∧ ∀ l, vex ≠ Some l → heap w2 !! l = heap w1 !! l.
Proof.
  unfold flip_vex_endness.
  destruct vex as [l0|], (_pyvex env) as [pv|];
    try (exists w1; repeat split; done).
  unfold bind, get_heap. destruct (heap w1 !! l0) as [d|];
    [|exists w1; repeat split; done].
  destruct (bool_decide (d = ∅)); [exists w1; repeat split; done|].
  eexists. split; [reflexivity|]. cbn [put_heap heap snd]. split.
  - apply length_insert.
  - intros l Hl. apply list_lookup_insert_ne. congruence.
Qed.

Lemma Arch_init_heap (env : Env) (v : Variant) (e : string)
    (w w' : World) (r : Res Arch) :
  Arch_init env v e w = (r, w') →
  (∀ l, (l < length (heap w))%nat → heap w' !! l = heap w !! l)
  ∧ (∀ a, r = Ok a →
       match vex_archinfo a with
       | Some l => is_Some (_pyvex env)
                   ∧ (length (heap w) ≤ l < length (heap w'))%nat
       | None => _pyvex env = None ∧ heap w' = heap w
       end).
Proof.
  intros E.
  unfold Arch_init in E.
  destruct (bool_decide (e ∈ [Endness.LE; Endness.BE; Endness.ME]));
    [|injection E as <- <-; split; [done|discriminate]].
  cbn [negb] in E. unfold bind at 1 in E.
  destruct (init_vex_archinfo_heap env w) as (vex & w1 & ext & Hinit & Hh1 & Hvex).
  rewrite Hinit in E.
  assert (Hold1 : ∀ l, (l < length (heap w))%nat → heap w1 !! l = heap w !! l).
  { intros l Hl. rewrite Hh1. apply lookup_app_l, Hl. }
  destruct (String.eqb e Endness.BE).
  - unfold bind at 1 in E. unfold bind at 1 in E.
    destruct (flip_vex_endness_heap env vex w1) as (w2 & Hflip & Hlen2 & Hh2).
    rewrite Hflip in E.
    assert (Hold2 : ∀ l, (l < length (heap w))%nat → heap w2 !! l = heap w !! l).
    { intros l Hl. rewrite Hh2; [apply Hold1, Hl|].
      destruct vex as [l0|]; [|done]. destruct Hvex as [_ ?].
      intros [= ->]. lia. }
    assert (Hblob : match vex with
                    | Some l => is_Some (_pyvex env)
                                ∧ (length (heap w) ≤ l < length (heap w2))%nat
                    | None => _pyvex env = None ∧ heap w2 = heap w
                    end).
    { destruct vex as [l0|].
      - rewrite Hlen2. exact Hvex.
      - destruct Hvex as [Hpv ->]. split; [exact Hpv|].
        apply list_eq. intros l. rewrite Hh2 by done. rewrite Hh1, app_nil_r.
        reflexivity. }
    unfold bind, lift, ret in E.
    destruct (reverse_ends (cls_ret_instruction v));
      [|injection E as <- <-; split; [exact Hold2|discriminate]].
    destruct (reverse_ends (cls_nop_instruction v));
      [|injection E as <- <-; split; [exact Hold2|discriminate]].
    destruct (init_unicorn env v e);
      injection E as <- <-; (split; [exact Hold2|]); [|discriminate].
    intros a' [= <-]. exact Hblob.
  - unfold bind, lift, ret in E.
    destruct (init_unicorn env v e);
      injection E as <- <-; (split; [exact Hold1|]); [|discriminate].
    intros a' [= <-]. cbn [vex_archinfo]. destruct vex as [l0|]; [exact Hvex|].
    destruct Hvex as [Hpv ->]. rewrite app_nil_r in Hh1. eauto.
Qed.

(** X5. [Arch.__init__] leaves every object that is already on the heap
    as it is, whether it returns or raises.  With the instruction-lifting
    backend imported, the blob of the instance it returns is an object that
    did not exist before the call; without it, the instance has no blob
    and the heap is unchanged. *)
Theorem Arch_init_fresh_blob (env : Env) (v : Variant) (e : string)
    (w : World) :
  let w' := snd (Arch_init env v e w) in
  (∀ l, (l < length (heap w))%nat → heap w' !! l = heap w !! l)
  ∧ (∀ a, fst (Arch_init env v e w) = Ok a →
       match vex_archinfo a with
       | Some l => is_Some (_pyvex env)
                   ∧ (length (heap w) ≤ l < length (heap w'))%nat
       | None => _pyvex env = None ∧ heap w' = heap w
       end).
Proof.
  cbv zeta. destruct (Arch_init env v e w) as [r w'] eqn:E. cbn [fst snd].
  apply (Arch_init_heap env v e w w' r E).
Qed.

Lemma Arch_init_fresh_blob_witness :
  is_Some (_pyvex pyvex_env)
  ∧ (length (heap empty_world) ≤ 1 < length (heap world_after_a))%nat.
Proof.
  pose proof (Arch_init_fresh_blob pyvex_env sample_mips Endness.BE empty_world)
    as [_ H].
  apply (H sample_blob_a). vm_compute. reflexivity.
Defined.

(** ** The register-size table and the register lookups *)

Lemma winner_fold_member (rn : gmap PyAtom string) (ks : list string)
    (cur : option string) (k : string) :
  fold_left (winner_step rn) ks cur = Some k → cur = Some k ∨ k ∈ ks.
Proof.
  revert cur. induction ks as [|k0 ks IH]; intros cur H; [left; exact H|].
  cbn [fold_left] in H. apply IH in H as [H|H].
  - unfold winner_step in H. destruct cur as [first|].
    + destruct (has_key (inr k0) rn); injection H as <-;
        [right; apply list_elem_of_here|left; reflexivity].
    + injection H as <-. right. apply list_elem_of_here.
  - right. apply list_elem_of_further, H.
Qed.

Lemma winner_fold_some (rn : gmap PyAtom string) (ks : list string)
    (cur : option string) :
  is_Some cur ∨ ks ≠ [] → is_Some (fold_left (winner_step rn) ks cur).
Proof.
  revert cur. induction ks as [|k0 ks IH]; intros cur H.
  - destruct H as [H|H]; [exact H|done].
  - cbn [fold_left]. apply IH. left. unfold winner_step.
    destruct cur as [first|]; [destruct (has_key (inr k0) rn)|]; eauto.
Qed.

(** With no register name among the keys of [register_names], a slot
    never changes hands. *)
Lemma winner_fold_first (rn : gmap PyAtom string) (ks : list string)
    (first : string) :
  (∀ k, rn !! inr k = None) →
  fold_left (winner_step rn) ks (Some first) = Some first.
Proof.
  intros Hkeys. induction ks as [|k0 ks IH]; [reflexivity|].
  cbn [fold_left winner_step]. unfold has_key. rewrite Hkeys. exact IH.
Qed.

Lemma elem_of_claimants (nm : option string) (registers : list (string * (Z * Z)))
    (slot : Z * Z) (k : string) :
  k ∈ claimants nm registers slot
  ↔ (k, slot) ∈ registers ∧ generic_alias nm k = false.
Proof.
  unfold claimants. rewrite list_elem_of_In, in_map_iff. split.
  - intros ([k' slot'] & <- & Hin). apply filter_In in Hin as [Hin Hf].
    cbn [fst snd] in *. apply andb_true_iff in Hf as [Hs Hg].
    apply bool_decide_eq_true in Hs as ->. apply negb_true_iff in Hg.
    split; [apply list_elem_of_In, Hin|exact Hg].
  - intros [Hin Hg]. exists (k, slot). split; [reflexivity|].
    apply filter_In. split; [apply list_elem_of_In, Hin|]. cbn [fst snd].
    rewrite bool_decide_eq_true_2 by reflexivity. rewrite Hg. reflexivity.
Qed.

Lemma build_register_size_names_lookup (v : Variant) (slot : Z * Z) :
  build_register_size_names v !! slot
  = winner (cls_register_names v) (claimants (cls_name v) (cls_registers v) slot).
Proof.
  unfold build_register_size_names. rewrite fold_step_lookup. reflexivity.
Qed.

Lemma Arch_init_register_size_names (env : Env) (v : Variant) (e : string)
    (w w' : World) (a : Arch) :
  Arch_init env v e w = (Ok a, w') →
  cls a = v ∧ register_size_names a = build_register_size_names v.
Proof.
  intros H. apply Arch_init_inv in H as (_ & _ & vex & uc & _ & -> & _).
  split; reflexivity.
Qed.

Lemma build_register_size_names_sound (v : Variant) (slot : Z * Z)
    (k : string) :
  build_register_size_names v !! slot = Some k →
  (k, slot) ∈ cls_registers v ∧ generic_alias (cls_name v) k = false.
Proof.
  rewrite build_register_size_names_lookup. unfold winner.
  intros H. apply winner_fold_member in H as [[=]|H].
  apply elem_of_claimants, H.
Qed.

Lemma build_register_size_names_complete (v : Variant) (slot : Z * Z)
    (k : string) :
  (k, slot) ∈ cls_registers v → generic_alias (cls_name v) k = false →
  is_Some (build_register_size_names v !! slot).
Proof.
  intros Hin Hg. rewrite build_register_size_names_lookup.
  apply winner_fold_some. right. intros Hnil.
  assert (Hk : k ∈ claimants (cls_name v) (cls_registers v) slot)
    by (apply elem_of_claimants; split; assumption).
  rewrite Hnil in Hk. apply elem_of_nil in Hk. exact Hk.
Qed.

(** X6. The register-size table of an instance holds only what the forward
    table declares and misses nothing it could hold: a slot maps to a name
    only if the forward table gives that name this (offset, size) and the
    name is not a generic alias of an X86/AMD64 class; and every
    (offset, size) that the forward table gives to such a name is a key of
    the table. *)
Theorem register_size_names_sound_complete (env : Env) (v : Variant)
    (e : string) (w w' : World) (a : Arch) :
  Arch_init env v e w = (Ok a, w') →
  (∀ slot k, register_size_names a !! slot = Some k →
             (k, slot) ∈ cls_registers v ∧ generic_alias (cls_name v) k = false)
  ∧ (∀ k slot, (k, slot) ∈ cls_registers v →
               generic_alias (cls_name v) k = false →
               is_Some (register_size_names a !! slot)).
Proof.
  intros Hinit. apply Arch_init_register_size_names in Hinit as [_ ->].
  split.
  - intros slot k. apply build_register_size_names_sound.
  - intros k slot. apply build_register_size_names_complete.
Qed.

Lemma register_size_names_sound_complete_witness :
  (∀ slot k, register_size_names sample_mips_le !! slot = Some k →
             (k, slot) ∈ cls_registers sample_mips
             ∧ generic_alias (cls_name sample_mips) k = false)
  ∧ (∀ k slot, (k, slot) ∈ cls_registers sample_mips →
               generic_alias (cls_name sample_mips) k = false →
               is_Some (register_size_names sample_mips_le !! slot)).
Proof.
  apply (register_size_names_sound_complete bare_env sample_mips Endness.LE
           empty_world empty_world sample_mips_le).
  reflexivity.
Defined.

(** X7. When no register name is a key of [register_names] (the map is
    keyed by offsets, as documented), a slot is held by the first name, in
    the order of the forward table, that is declared for it and is not a
    generic alias of an X86/AMD64 class: later names never replace it. *)
Theorem register_size_names_first_wins (env : Env) (v : Variant) (e : string)
    (w w' : World) (a : Arch) :
  Arch_init env v e w = (Ok a, w') →
  (∀ k, cls_register_names v !! inr k = None) →
  ∀ slot, register_size_names a !! slot
          = head (claimants (cls_name v) (cls_registers v) slot).
Proof.
  intros Hinit Hkeys slot.
  apply Arch_init_register_size_names in Hinit as [_ ->].
  rewrite build_register_size_names_lookup. unfold winner.
  destruct (claimants (cls_name v) (cls_registers v) slot) as [|k ks];
    [reflexivity|].
  cbn [fold_left winner_step head]. apply winner_fold_first, Hkeys.
Qed.

Lemma register_size_names_first_wins_witness :
  register_size_names
    (constructed bare_env sample_x86 Endness.LE None (None, None)) !! (68, 4)
  = head (claimants (cls_name sample_x86) (cls_registers sample_x86) (68, 4)).
Proof.
  apply (register_size_names_first_wins bare_env sample_x86 Endness.LE
           empty_world empty_world _ eq_refl).
  intros k. cbn [sample_x86 cls_register_names].
  rewrite !lookup_insert_ne by discriminate.
  apply lookup_singleton_ne. discriminate.
Defined.

Lemma registers_get_Some (registers : list (string * (Z * Z))) (name : string)
    (slot : Z * Z) :
  registers_get registers name = Some slot → (name, slot) ∈ registers.
Proof.
  induction registers as [|[k v] registers IH]; [discriminate|].
  cbn [registers_get]. destruct (String.eqb_spec k name) as [->|Hne].
  - intros [= ->]. apply list_elem_of_here.
  - intros H. apply list_elem_of_further, IH, H.
Qed.

Lemma registers_get_None (registers : list (string * (Z * Z))) (name : string) :
  registers_get registers name = None ↔ name ∉ map fst registers.
Proof.
  induction registers as [|[k v] registers IH].
  - split; [intros _; apply not_elem_of_nil|reflexivity].
  - cbn [registers_get map fst]. rewrite not_elem_of_cons.
    destruct (String.eqb_spec k name) as [->|Hne].
    + split; [discriminate|intros [? _]; done].
    + rewrite IH. split; [intros ?; split; congruence|intros [_ ?]; assumption].
Qed.

Lemma registers_get_unique_key (registers : list (string * (Z * Z)))
    (name : string) (slot : Z * Z) :
  NoDup (map fst registers) → (name, slot) ∈ registers →
  registers_get registers name = Some slot.
Proof.
  induction registers as [|[k v] registers IH]; intros Hnd Hin.
  - apply elem_of_nil in Hin. done.
  - cbn [map fst] in Hnd. apply NoDup_cons in Hnd as [Hk Hnd].
    cbn [registers_get]. apply elem_of_cons in Hin as [Heq|Hin].
    + injection Heq as <- <-. rewrite String.eqb_refl. reflexivity.
    + destruct (String.eqb_spec k name) as [->|Hne]; [|apply IH; assumption].
      exfalso. apply Hk. apply list_elem_of_In, in_map_iff.
      exists (name, slot). split; [reflexivity|apply list_elem_of_In, Hin].
Qed.

Lemma unique_slot_name (registers : list (string * (Z * Z)))
    (k k' : string) (slot : Z * Z) :
  NoDup (map snd registers) →
  (k, slot) ∈ registers → (k', slot) ∈ registers → k = k'.
Proof.
  induction registers as [|[k0 v0] registers IH]; intros Hnd Hk Hk'.
  - apply elem_of_nil in Hk. done.
  - cbn [map snd] in Hnd. apply NoDup_cons in Hnd as [Hv Hnd].
    assert (Hin : ∀ x, (x, slot) ∈ registers → slot ∈ map snd registers).
    { intros x Hx. apply list_elem_of_In, in_map_iff. exists (x, slot).
      split; [reflexivity|apply list_elem_of_In, Hx]. }
    apply elem_of_cons in Hk as [Hk|Hk];
      apply elem_of_cons in Hk' as [Hk'|Hk'].
    + congruence.
    + injection Hk as -> ->. exfalso. eauto.
    + injection Hk' as -> ->. exfalso. eauto.
    + apply IH; assumption.
Qed.

(** X8. Round trip between the two register lookups.  Let the forward
    table have one item per name and give no (offset, size) to two names.
    For every item name -> (offset, size) whose name is not a generic
    alias of an X86/AMD64 class, [get_register_offset(name)] returns the
    offset and [translate_register_name(offset, size)] returns the name. *)
Theorem register_name_round_trip (env : Env) (v : Variant) (e : string)
    (w w' : World) (a : Arch) (k : string) (o s : Z) :
  Arch_init env v e w = (Ok a, w') →
  NoDup (map fst (cls_registers v)) →
  NoDup (map snd (cls_registers v)) →
  (k, (o, s)) ∈ cls_registers v →
  generic_alias (cls_name v) k = false →
  get_register_offset a k = Ok o
  ∧ translate_register_name a o (Some s) = k.
Proof.
  intros Hinit Hkeys Hslots Hin Hg.
  apply Arch_init_register_size_names in Hinit as [Hcls Htbl].
  assert (Hsound : ∀ slot k', register_size_names a !! slot = Some k' →
                              (k', slot) ∈ cls_registers v)
    by (intros slot k' Hk'; rewrite Htbl in Hk';
        apply (build_register_size_names_sound v slot k' Hk')).
  assert (Hcomplete : is_Some (register_size_names a !! (o, s)))
    by (rewrite Htbl; apply (build_register_size_names_complete v (o, s) k Hin Hg)).
  split.
  - unfold get_register_offset. rewrite Hcls.
    rewrite (registers_get_unique_key _ k (o, s) Hkeys Hin). reflexivity.
  - unfold translate_register_name.
    destruct Hcomplete as [k' Hk']. rewrite Hk'.
    pose proof (Hsound (o, s) k' Hk') as Hin'.
    apply (unique_slot_name _ k' k (o, s) Hslots Hin' Hin).
Qed.

Lemma register_name_round_trip_witness :
  get_register_offset sample_mips_le "v0" = Ok 8
  ∧ translate_register_name sample_mips_le 8 (Some 4) = "v0".
Proof.
  apply (register_name_round_trip bare_env sample_mips Endness.LE
           empty_world empty_world sample_mips_le "v0" 8 4).
  - reflexivity.
  - cbn. repeat (apply NoDup_cons; split;
                 [rewrite ?elem_of_cons, elem_of_nil; intros H;
                  repeat destruct H as [H|H]; done|]).
    apply NoDup_nil_2.
  - cbn. repeat (apply NoDup_cons; split;
                 [rewrite ?elem_of_cons, elem_of_nil; intros H;
                  repeat destruct H as [H|H]; done|]).
    apply NoDup_nil_2.
  - do 2 apply list_elem_of_further. apply list_elem_of_here.
  - reflexivity.
Defined.

(** X9. [get_register_offset(name)] returns exactly when the forward
    table has the name, and then it returns the offset of the name's item;
    for every other name it raises [ValueError]. *)
Theorem get_register_offset_known_names (self : Arch) (name : string) :
  ((∃ o, get_register_offset self name = Ok o)
   ↔ name ∈ map fst (cls_registers (cls self)))
  ∧ (name ∉ map fst (cls_registers (cls self)) →
     get_register_offset self name = Raise ValueError)
  ∧ (∀ o, get_register_offset self name = Ok o →
          ∃ s, (name, (o, s)) ∈ cls_registers (cls self)).
Proof.
  unfold get_register_offset.
  pose proof (registers_get_None (cls_registers (cls self)) name) as Hnone.
  destruct (registers_get (cls_registers (cls self)) name) as [[o s]|] eqn:Hget.
  - apply registers_get_Some in Hget.
    assert (Hin : name ∈ map fst (cls_registers (cls self))).
    { apply list_elem_of_In, in_map_iff. exists (name, (o, s)).
      split; [reflexivity|apply list_elem_of_In, Hget]. }
    split; [split; eauto|]. split; [intros Hnot; contradiction|].
    intros o' [= <-]. eauto.
  - assert (Hnot : name ∉ map fst (cls_registers (cls self)))
      by (apply Hnone; reflexivity).
    split; [split; [intros [o [=]]|intros ?; contradiction]|].
    split; [reflexivity|]. intros o [=].
Qed.

Lemma get_register_offset_known_names_witness :
  get_register_offset sample_mips_le "ra" = Raise ValueError.
Proof.
  apply (get_register_offset_known_names sample_mips_le "ra").
  cbn. rewrite !elem_of_cons, elem_of_nil.
  intros [H|[H|[H|H]]]; done.
Defined.

Lemma py_str_int_reads_back (n : Z) :
  Z.of_int <$> NilZero.int_of_string (py_str_int n) = Some n.
Proof.
  unfold py_str_int. rewrite NilZero.isi.
  - cbn. rewrite DecimalZ.of_to. reflexivity.
  - destruct n as [|p|p]; cbn; try discriminate.
    intros [= H]. apply (Unsigned.to_uint_nonnil p H).
  - destruct n as [|p|p]; cbn; try discriminate.
    intros [= H]. apply (Unsigned.to_uint_nonnil p H).
Qed.

(** X10. The fallbacks of [translate_register_name] on an instance.  With
    a size for which the forward table declares no name at this offset
    (generic aliases of an X86/AMD64 class aside), the answer is the one
    given without a size; without a size the answer is the display name of
    the offset and, for an offset that [register_names] does not hold, the
    decimal numeral of the offset, which reads back as that offset. *)
Theorem translate_register_name_fallback (env : Env) (v : Variant)
    (e : string) (w w' : World) (a : Arch) (o : Z) :
  Arch_init env v e w = (Ok a, w') →
  (∀ s, (∀ k, (k, (o, s)) ∈ cls_registers v →
              generic_alias (cls_name v) k = true) →
        translate_register_name a o (Some s) = translate_register_name a o None)
  ∧ (∀ n, cls_register_names v !! inl o = Some n →
          translate_register_name a o None = n)
  ∧ (cls_register_names v !! inl o = None →
     translate_register_name a o None = py_str_int o
     ∧ Z.of_int <$> NilZero.int_of_string (translate_register_name a o None)
       = Some o).
Proof.
  intros Hinit.
  apply Arch_init_register_size_names in Hinit as [Hcls Htbl].
  unfold translate_register_name. rewrite Hcls. split; [|split].
  - intros s Hnone.
    destruct (register_size_names a !! (o, s)) as [k|] eqn:Hk; [|reflexivity].
    rewrite Htbl in Hk.
    destruct (build_register_size_names_sound v (o, s) k Hk) as [Hin Hg].
    rewrite (Hnone k Hin) in Hg. discriminate.
  - intros n ->. reflexivity.
  - intros ->. split; [reflexivity|apply py_str_int_reads_back].
Qed.

Lemma translate_register_name_fallback_witness :
  translate_register_name sample_mips_le 8 (Some 2) = "v0"
  ∧ translate_register_name sample_mips_le 12 None = "12".
Proof.
  destruct (translate_register_name_fallback bare_env sample_mips Endness.LE
              empty_world empty_world sample_mips_le 8 eq_refl)
    as (Hsize & Hname & _).
  destruct (translate_register_name_fallback bare_env sample_mips Endness.LE
              empty_world empty_world sample_mips_le 12 eq_refl)
    as (_ & _ & Hnum).
  split.
  - rewrite Hsize.
    + apply Hname. reflexivity.
    + intros k Hin. exfalso. cbn in Hin.
      rewrite !elem_of_cons, elem_of_nil in Hin.
      destruct Hin as [H|[H|[H|H]]]; done.
  - apply Hnum. reflexivity.
Defined.

(** ** The unicorn register map *)

Lemma elem_of_register_names_values (rn : gmap PyAtom string) (r : string) :
  r ∈ map snd (map_to_list rn) ↔ ∃ off, rn !! off = Some r.
Proof.
  rewrite list_elem_of_In, in_map_iff. split.
  - intros ([off r'] & <- & Hin). exists off.
    apply elem_of_map_to_list, list_elem_of_In, Hin.
  - intros [off Hoff]. exists (off, r). split; [reflexivity|].
    apply list_elem_of_In, elem_of_map_to_list, Hoff.
Qed.

(** X11. The unicorn register map of an instance.  A class without
    [uc_mode] gets none.  Otherwise the map holds, for exactly those
    display names [r] of [register_names] for which the constants
    namespace has the attribute [uc_prefix + "REG_" + r.upper()], the value
    of that attribute under the key [r]; names without such a constant are
    left out. *)
Theorem uc_regs_probed_constants (env : Env) (v : Variant) (e : string)
    (w w' : World) (a : Arch) :
  Arch_init env v e w = (Ok a, w') →
  (cls_uc_mode v = None → uc_regs a = None)
  ∧ (is_Some (cls_uc_mode v) →
     ∃ regs, uc_regs a = Some regs
             ∧ ∀ r c, regs !! r = Some c
                      ↔ (∃ off, cls_register_names v !! off = Some r)
                        ∧ ∃ prefix consts,
                            cls_uc_prefix v = Some prefix
                            ∧ cls_uc_const v = Some consts
                            ∧ consts !! (prefix +:+ "REG_" +:+ upper r) = Some c).
Proof.
  intros Hinit.
  apply Arch_init_inv in Hinit as (_ & _ & vex & uc & Huc & -> & _).
  cbn [constructed uc_regs]. unfold init_unicorn in Huc. split.
  - intros Hmode. rewrite Hmode in Huc. injection Huc as <-. reflexivity.
  - intros [m Hmode]. rewrite Hmode in Huc.
    destruct (if String.eqb e Endness.BE
              then match _unicorn env with
                   | Some uc0 =>
                       Ok (m - UC_MODE_LITTLE_ENDIAN uc0 + UC_MODE_BIG_ENDIAN uc0)
                   | None => Raise AttributeError
                   end
              else Ok m) as [m'|x]; [|discriminate].
    set (names := map snd (map_to_list (cls_register_names v))) in Huc.
    destruct (fold_left (uc_regs_step v) names (Ok ∅)) as [regs|x] eqn:Hfold;
      [|discriminate].
    injection Huc as <-. exists regs. split; [reflexivity|]. intros r c.
    rewrite <- elem_of_register_names_values. fold names.
    destruct (cls_uc_prefix v) as [p|] eqn:Hp.
    + destruct (uc_regs_fold_ok v p names ∅ Hp) as (regs' & Hfold' & Hlook).
      rewrite Hfold in Hfold'. injection Hfold' as <-. rewrite Hlook.
      rewrite lookup_empty. case_bool_decide as Hin.
      * destruct (cls_uc_const v) as [consts|]; cbn [mbind option_bind].
        -- destruct (consts !! (p +:+ "REG_" +:+ upper r)) as [c'|] eqn:Hc.
           ++ split.
              ** intros [= <-]. split; [exact Hin|]. eauto.
              ** intros (_ & p' & consts' & [= <-] & [= <-] & Hc').
                 rewrite Hc in Hc'. exact Hc'.
           ++ split; [discriminate|].
              intros (_ & p' & consts' & [= <-] & [= <-] & Hc'). congruence.
        -- split; [discriminate|]. intros (_ & p' & consts' & _ & [=] & _).
      * split; [discriminate|]. intros [? _]. contradiction.
    + destruct names as [|n names'] eqn:En.
      * cbn in Hfold. injection Hfold as <-. rewrite lookup_empty.
        split; [discriminate|]. intros [Hin _]. apply elem_of_nil in Hin. done.
      * rewrite uc_regs_fold_no_prefix in Hfold by done. discriminate.
Qed.

Lemma uc_regs_probed_constants_witness :
  ∃ regs,
    uc_regs (constructed unicorn_env sample_mips_uc Endness.BE None
               (Some 1073741828,
                Some {[ "v0" := 4; "at" := 3 ]}))
    = Some regs
    ∧ ∀ r c, regs !! r = Some c
             ↔ (∃ off, cls_register_names sample_mips_uc !! off = Some r)
               ∧ ∃ prefix consts,
                   cls_uc_prefix sample_mips_uc = Some prefix
                   ∧ cls_uc_const sample_mips_uc = Some consts
                   ∧ consts !! (prefix +:+ "REG_" +:+ upper r) = Some c.
Proof.
  apply (uc_regs_probed_constants unicorn_env sample_mips_uc Endness.BE
           empty_world empty_world).
  - vm_compute. reflexivity.
  - eexists. reflexivity.
Defined.

(** ** [Arch.copy], continued *)

Lemma init_unicorn_ext (env : Env) (v : Variant) (e1 e2 : string) :
  String.eqb e1 Endness.BE = String.eqb e2 Endness.BE →
  init_unicorn env v e1 = init_unicorn env v e2.
Proof. unfold init_unicorn. intros ->. reflexivity. Qed.

Lemma constructed_ext (env : Env) (v : Variant) (e1 e2 : string) vex uc :
  String.eqb e1 Endness.BE = String.eqb e2 Endness.BE →
  constructed env v e1 vex uc = constructed env v e2 vex uc.
Proof. unfold constructed. intros ->. reflexivity. Qed.

Lemma world_eq (w1 w2 : World) :
  heap w1 = heap w2 → globals w1 = globals w2 → w1 = w2.
Proof.
  destruct w1, w2. cbn. unfold globals. cbn. intros -> [= -> -> ->].
  reflexivity.
Qed.

(** Without the instruction-lifting backend the constructor leaves the
    world exactly as it was. *)
Lemma Arch_init_no_pyvex_world (env : Env) (v : Variant) (e : string)
    (w w' : World) (a : Arch) :
  _pyvex env = None → Arch_init env v e w = (Ok a, w') →
  w' = w ∧ vex_archinfo a = None.
Proof.
  intros Hpv Hinit.
  pose proof (Arch_init_heap env v e w w' (Ok a) Hinit) as [_ Hblob].
  pose proof (Arch_init_globals env v e w) as Hg.
  rewrite Hinit in Hg. cbn [fst snd] in Hg.
  specialize (Hblob a eq_refl). destruct (vex_archinfo a) as [l|].
  - destruct Hblob as [[pv Hsome] _]. congruence.
  - destruct Hblob as [_ Hheap]. split; [|reflexivity].
    apply world_eq; assumption.
Qed.

(** X12. Without the instruction-lifting backend an instance has no blob,
    and [copy()] of an instance that [Arch.__init__] returned never
    returns; for a class that declares little-endian memory it builds the
    new instance and then raises [AttributeError], leaving the world as it
    was. *)
Theorem Arch_copy_without_blob (env : Env) (v : Variant) (e : string)
    (w0 w1 w : World) (self : Arch) :
  _pyvex env = None →
  Arch_init env v e w0 = (Ok self, w1) →
  (∀ c w', Arch_copy env self w ≠ (Ok c, w'))
  ∧ (cls_memory_endness v = Endness.LE →
     Arch_copy env self w = (Raise AttributeError, w)).
Proof.
  intros Hpv Hself.
  destruct (Arch_init_no_pyvex_world env v e w0 w1 self Hpv Hself) as [_ Hblob].
  split.
  - intros c w' Hcopy.
    apply Arch_copy_inv in Hcopy as (? & ? & l & ? & _ & Hl & _). congruence.
  - intros Hle.
    apply Arch_init_inv in Hself as (Hvalid & Hlen & vex & uc & Huc & -> & _).
    set (e' := memory_endness (constructed env v e vex uc)).
    assert (Heqb : String.eqb e' Endness.BE = String.eqb e Endness.BE).
    { unfold e'. cbn [constructed memory_endness]. rewrite Hle.
      destruct (String.eqb e Endness.BE); reflexivity. }
    assert (Hvalid' : e' ∈ [Endness.LE; Endness.BE; Endness.ME]).
    { unfold e'. cbn [constructed memory_endness]. rewrite Hle.
      destruct (String.eqb e Endness.BE);
        [apply list_elem_of_further|]; apply list_elem_of_here. }
    assert (Hlen' : e' = Endness.BE →
                    (length (cls_ret_instruction v) mod 4 = 0)%nat
                    ∧ (length (cls_nop_instruction v) mod 4 = 0)%nat).
    { intros He'. apply Hlen. apply String.eqb_eq. rewrite <- Heqb.
      apply String.eqb_eq, He'. }
    rewrite <- (init_unicorn_ext env v e' e Heqb) in Huc.
    destruct (Arch_init_constructed env v e' w uc Hvalid' Hlen' Huc)
      as (vex' & w2 & Hnew & _).
    destruct (Arch_init_no_pyvex_world env v e' w w2 _ Hpv Hnew) as [-> _].
    unfold Arch_copy. fold e'. cbn [cls constructed]. unfold bind at 1.
    rewrite Hnew. cbn [vex_archinfo] in Hblob. cbn [vex_archinfo].
    rewrite Hblob. reflexivity.
Qed.

Lemma Arch_copy_without_blob_witness :
  Arch_copy bare_env sample_mips_be empty_world
  = (Raise AttributeError, empty_world).
Proof.
  apply (Arch_copy_without_blob bare_env sample_mips Endness.BE
           empty_world empty_world empty_world sample_mips_be);
    reflexivity.
Defined.

(** X13. A returning [copy()] of an instance that [Arch.__init__] returned
    is an instance of the same class that compares equal to the original;
    when the original was built big-endian, or its class does not declare
    big-endian memory, the copy agrees with the original on every
    attribute but the blob. *)
Theorem Arch_copy_same_instance (env : Env) (v : Variant) (e : string)
    (w0 w1 w w' : World) (self c : Arch) :
  Arch_init env v e w0 = (Ok self, w1) →
  Arch_copy env self w = (Ok c, w') →
  cls c = cls self
  ∧ Arch_eq c (OArch self) = true
  ∧ (e = Endness.BE ∨ cls_memory_endness v ≠ Endness.BE → same_but_blob c self).
Proof.
  intros Hself Hcopy.
  pose proof (Arch_copy_eq env v e w0 w1 w w' self c Hself Hcopy) as Heq.
  apply Arch_init_inv in Hself as (_ & _ & vex & uc & Huc & -> & _).
  apply Arch_copy_inv in Hcopy as (new_arch & w2 & l & d & Hnew & _ & _ & -> & _).
  apply Arch_init_inv in Hnew as (_ & _ & vex' & uc' & Huc' & -> & _).
  split; [reflexivity|]. split; [exact Heq|].
  intros Hcase.
  set (e' := memory_endness (constructed env v e vex uc)) in *.
  assert (Heqb : String.eqb e' Endness.BE = String.eqb e Endness.BE).
  { unfold e'. cbn [constructed memory_endness].
    destruct (String.eqb_spec e Endness.BE) as [|Hne]; [reflexivity|].
    destruct Hcase as [?|Hcls]; [contradiction|].
    apply String.eqb_neq, Hcls. }
  cbn [cls constructed] in Huc'.
  rewrite (init_unicorn_ext env v e' e Heqb), Huc in Huc'.
  injection Huc' as <-.
  unfold same_but_blob. cbn [cls constructed].
  rewrite (constructed_ext env v e' e vex' uc Heqb). reflexivity.
Qed.

Lemma Arch_copy_same_instance_witness :
  cls sample_blob_c = cls sample_blob_a
  ∧ Arch_eq sample_blob_c (OArch sample_blob_a) = true
  ∧ same_but_blob sample_blob_c sample_blob_a.
Proof.
  destruct (Arch_copy_same_instance pyvex_env sample_mips Endness.BE
              empty_world world_after_a world_after_a world_after_c
              sample_blob_a sample_blob_c) as (H1 & H2 & H3).
  - vm_compute. reflexivity.
  - vm_compute. reflexivity.
  - split; [exact H1|]. split; [exact H2|]. apply H3. left. reflexivity.
Defined.

(** X14. After a returning [copy()], the blob of the copy is an object
    that did not exist before the call and is not the original's blob; the
    two hold the same items; and an assignment to a key of the copy's blob
    sets that key there and leaves what the original's blob holds under
    every key as it was. *)
Theorem Arch_copy_own_keys (env : Env) (self c : Arch) (w w' : World) :
  Arch_copy env self w = (Ok c, w') →
  ∃ l l',
    vex_archinfo self = Some l ∧ vex_archinfo c = Some l' ∧ l ≠ l'
    ∧ (length (heap w) ≤ l')%nat
    ∧ heap w' !! l' = heap w' !! l
    ∧ ∀ k v, ∃ h, blob_write (heap w') l' [k] v = Some h
                  ∧ blob_read h l' [k] = Some v
                  ∧ ∀ k', blob_read h l [k'] = blob_read (heap w') l [k'].
Proof.
  intros Hcopy.
  destruct (Arch_copy_top_level env self c w w' Hcopy)
    as (l & l' & d & Hl & Hl' & Hne & Hd & Hd' & Hwrite).
  exists l, l'. split; [exact Hl|]. split; [exact Hl'|]. split; [exact Hne|].
  split.
  { apply Arch_copy_inv in Hcopy as (new_arch & w1 & l0 & d0 & Hnew & _ & _ & -> & _).
    cbn [with_vex_archinfo vex_archinfo] in Hl'. injection Hl' as <-.
    pose proof (Arch_init_heap env (cls self) (memory_endness self) w w1
                  (Ok new_arch) Hnew) as [Hold _].
    destruct (Nat.le_gt_cases (length (heap w)) (length (heap w1)))
      as [|Hlt]; [assumption|].
    exfalso.
    assert (Hlast : (length (heap w1) < length (heap w))%nat) by lia.
    specialize (Hold _ Hlast).
    rewrite (lookup_ge_None_2 (heap w1)) in Hold by lia.
    symmetry in Hold. apply lookup_ge_None_1 in Hold. lia. }
  split; [rewrite Hd, Hd'; reflexivity|].
  intros k v. destruct (Hwrite k v) as (h & Hh & Hhl & Hhl').
  exists h. split; [exact Hh|]. split.
  - cbn [blob_read]. rewrite Hhl'. rewrite lookup_insert_eq.
    destruct v; reflexivity.
  - intros k'. cbn [blob_read]. rewrite Hhl, Hd. reflexivity.
Qed.

Lemma Arch_copy_own_keys_witness :
  ∃ l l',
    vex_archinfo sample_blob_a = Some l ∧ vex_archinfo sample_blob_c = Some l'
    ∧ l ≠ l' ∧ (length (heap world_after_a) ≤ l')%nat.
Proof.
  destruct (Arch_copy_own_keys pyvex_env sample_blob_a sample_blob_c
              world_after_a world_after_c)
    as (l & l' & Hl & Hl' & Hne & Hfresh & _).
  - vm_compute. reflexivity.
  - exists l, l'. repeat split; assumption.
Defined.

(** ** [Arch.__eq__], [Arch.__ne__], continued *)

(** X15. On instances [==] is an equivalence relation; an instance is
    never equal to a value that is not an [Arch]; and [!=] is the negation
    of [==] on every operand. *)
Theorem Arch_eq_equivalence :
  (∀ a, Arch_eq a (OArch a) = true)
  ∧ (∀ a b, Arch_eq a (OArch b) = Arch_eq b (OArch a))
  ∧ (∀ a b c, Arch_eq a (OArch b) = true → Arch_eq b (OArch c) = true →
              Arch_eq a (OArch c) = true)
  ∧ (∀ a val, Arch_eq a (OVal val) = false ∧ Arch_ne a (OVal val) = true)
  ∧ (∀ a other, Arch_ne a other = negb (Arch_eq a other)).
Proof.
  split; [intros a; apply Arch_eq_true_iff; reflexivity|].
  split.
  { intros a b. apply eq_true_iff_eq. rewrite !Arch_eq_true_iff.
    split; intros H; symmetry; exact H. }
  split.
  { intros a b c Hab Hbc. apply Arch_eq_true_iff.
    apply Arch_eq_true_iff in Hab, Hbc. congruence. }
  split; [intros a val; split; reflexivity|].
  intros a other. reflexivity.
Qed.

Lemma Arch_eq_equivalence_witness :
  Arch_eq sample_mips_le (OArch (with_vex_archinfo sample_mips_le (Some 7%nat)))
  = true.
Proof.
  destruct Arch_eq_equivalence as (_ & _ & Htrans & _).
  apply (Htrans sample_mips_le sample_mips_le); reflexivity.
Defined.

(** ** Tag translation, continued *)

(** X16. [translate_dynamic_tag] and [translate_symbol_type] return for
    every tag, an [int] or a [str]: the table's value when the tag is a
    key, the tag itself otherwise.  They leave the heap and the registry
    alone, and hand the logger exactly one record when the tag is an [int]
    that is not a key, and none in every other case. *)
Theorem translate_tag_total (self : Arch) (tag : PyAtom) (w : World) :
  (∃ w', translate_dynamic_tag self tag w
         = (Ok (default tag (cls_dynamic_tag_translation (cls self) !! tag)), w')
         ∧ heap w' = heap w ∧ arch_id_map w' = arch_id_map w
         ∧ all_arches w' = all_arches w
         ∧ ∃ records,
             log w' = log w ++ records
             ∧ length records
               = if logs_miss (cls_dynamic_tag_translation (cls self)) tag
                 then 1%nat else 0%nat)
  ∧ (∃ w', translate_symbol_type self tag w
           = (Ok (default tag (cls_symbol_type_translation (cls self) !! tag)), w')
           ∧ heap w' = heap w ∧ arch_id_map w' = arch_id_map w
           ∧ all_arches w' = all_arches w
           ∧ ∃ records,
               log w' = log w ++ records
               ∧ length records
                 = if logs_miss (cls_symbol_type_translation (cls self)) tag
                   then 1%nat else 0%nat).
Proof.
  split.
  - unfold translate_dynamic_tag, logs_miss.
    destruct (cls_dynamic_tag_translation (cls self) !! tag) as [t|].
    + exists w. repeat split. exists []. rewrite app_nil_r. split; reflexivity.
    + destruct tag as [n|s].
      * eexists. split; [reflexivity|]. repeat split.
        eexists [_]. split; reflexivity.
      * exists w. repeat split. exists []. rewrite app_nil_r. split; reflexivity.
  - unfold translate_symbol_type, logs_miss.
    destruct (cls_symbol_type_translation (cls self) !! tag) as [t|].
    + exists w. repeat split. exists []. rewrite app_nil_r. split; reflexivity.
    + destruct tag as [n|s].
      * eexists. split; [reflexivity|]. repeat split.
        eexists [_]. split; reflexivity.
      * exists w. repeat split. exists []. rewrite app_nil_r. split; reflexivity.
Qed.

(** ** [register_arch], continued *)

Section registration.
Variable env : Env.

Lemma check_regexes_ok_iff (rxs : list PyVal) (w : World) :
  fst (check_regexes env rxs w) = Ok tt ↔ Forall (regex_ok env) rxs.
Proof.
  induction rxs as [|rx rxs IH].
  - split; [intros _; constructor|reflexivity].
  - rewrite Forall_cons. cbn [check_regexes]. unfold bind.
    destruct rx as [|z|s|src|l]; cbn [check_regex regex_ok];
      try (split; [discriminate|intros [[] _]]).
    + destruct (re_compiles env s); cbn.
      * rewrite IH. tauto.
      * split; [discriminate|intros [[=] _]].
    + cbn. rewrite IH. tauto.
Qed.



End registration.


Section registration_outcomes.
Variable env : Env.

(** X18. What a returning [register_arch] has done: its arguments were
    well formed, exactly one tuple was appended to [arch_id_map], the log
    is unchanged, and [all_arches] grew by instances of the registered
    class: for ["any"] by two, the big-endian one first and then the one
    with the class's declared endness; for any other endness, which then
    is one of the three constants, by one. *)
Theorem register_arch_returns (regexes bits endness : PyVal)
    (my_arch : Variant) (w w' : World) :
  register_arch env regexes bits endness my_arch w = (Ok tt, w') →
  ∃ rxs b e,
    regexes = PList rxs ∧ Forall (regex_ok env) rxs
    ∧ bits = PInt b ∧ endness = PStr e
    ∧ arch_id_map w' = arch_id_map w ++ [entry_of rxs b e my_arch]
    ∧ log w' = log w
    ∧ (e = "any" →
       ∃ be le, all_arches w' = all_arches w ++ [be; le]
                ∧ cls be = my_arch ∧ cls le = my_arch
                ∧ memory_endness be = Endness.BE
                ∧ memory_endness le = cls_memory_endness my_arch)
    ∧ (e ≠ "any" →
       e ∈ [Endness.LE; Endness.BE; Endness.ME]
       ∧ ∃ a, all_arches w' = all_arches w ++ [a] ∧ cls a = my_arch).
Proof.
  intros Hreg.
  assert (Hwf : ∃ rxs b e, regexes = PList rxs ∧ bits = PInt b
                           ∧ endness = PStr e).
  { pose proof Hreg as H. unfold register_arch in H.
    destruct regexes as [| | | |rxs]; try (unfold raise in H; discriminate).
    unfold bind at 1 in H.
    destruct (check_regexes env rxs w) as [[[]|x] w0]; [|discriminate].
    destruct bits as [|b| | |]; try (unfold raise in H; discriminate).
    destruct endness as [| |e| |]; try (unfold raise in H; discriminate).
    exists rxs, b, e. repeat split. }
  destruct Hwf as (rxs & b & e & -> & -> & ->).
  pose proof (register_arch_checks_regexes env _ _ _ _ _ _ Hreg) as Hcheck0.
  pose proof (proj1 (check_regexes_ok_iff env rxs w) Hcheck0) as Hrxs.
  exists rxs, b, e. do 4 (split; [done|]).
  pose proof (proj2 (check_regexes_ok_iff env rxs w) Hrxs) as Hcheck.
  destruct (String.eqb_spec e "any") as [->|Hne].
  - rewrite (register_arch_any env rxs b my_arch w Hcheck) in Hreg.
    destruct (Arch_init env my_arch Endness.BE _) as [[be|x] w1] eqn:Hbe;
      [|discriminate].
    destruct (Arch_init env my_arch Endness.LE _) as [[le|x] w2] eqn:Hle;
      [|discriminate].
    injection Hreg as <-.
    apply Arch_init_inv in Hbe as (_ & _ & ? & ? & _ & -> & Hg1).
    apply Arch_init_inv in Hle as (_ & _ & ? & ? & _ & -> & Hg2).
    injection Hg1 as Hm1 Ha1 Hl1. injection Hg2 as Hm2 Ha2 Hl2.
    cbn in *. rewrite Hm2, Hm1, Hl2, Hl1, Ha2, Ha1, <- app_assoc.
    split; [reflexivity|]. split; [reflexivity|].
    split; [|intros ?; done]. intros _. eexists _, _.
    split; [reflexivity|]. repeat split.
  - rewrite (register_arch_fixed env rxs b e my_arch w Hne Hcheck) in Hreg.
    destruct (Arch_init env my_arch e _) as [[a|x] w1] eqn:Ha; [|discriminate].
    injection Hreg as <-.
    apply Arch_init_inv in Ha as (Hvalid & _ & ? & ? & _ & -> & Hg).
    injection Hg as Hm Har Hl. cbn in *. rewrite Hm, Hl, Har.
    split; [reflexivity|]. split; [reflexivity|].
    split; [intros ?; done|]. intros _. split; [exact Hvalid|].
    eexists. split; reflexivity.
Qed.
End registration_outcomes.

Lemma register_arch_returns_witness :
  ∃ rxs b e,
    PList [PStr "^foo"] = PList rxs ∧ Forall (regex_ok bare_env) rxs
    ∧ PInt 32 = PInt b ∧ PStr Endness.LE = PStr e
    ∧ arch_id_map world_after_A
      = arch_id_map empty_world ++ [entry_of rxs b e sample_mips]
    ∧ log world_after_A = log empty_world
    ∧ (e = "any" →
       ∃ be le, all_arches world_after_A = all_arches empty_world ++ [be; le]
                ∧ cls be = sample_mips ∧ cls le = sample_mips
                ∧ memory_endness be = Endness.BE
                ∧ memory_endness le = cls_memory_endness sample_mips)
    ∧ (e ≠ "any" →
       e ∈ [Endness.LE; Endness.BE; Endness.ME]
       ∧ ∃ a, all_arches world_after_A = all_arches empty_world ++ [a]
              ∧ cls a = sample_mips).
Proof.
  apply (register_arch_returns bare_env (PList [PStr "^foo"]) (PInt 32)
           (PStr Endness.LE) sample_mips empty_world world_after_A).
  vm_compute. reflexivity.
Defined.

(** X19. When [register_arch] raises although its arguments are well
    formed, the exception is the one the constructor raised (for ["any"],
    the big-endian construction: once that has returned the second one
    returns too), the tuple appended before the construction is still the
    last element of [arch_id_map], and [all_arches] and the log are as
    before the call. *)
Theorem register_arch_raises_after_append (env : Env) (rxs : list PyVal)
    (b : Z) (e : string) (my_arch : Variant) (w w' : World) (x : exn) :
  Forall (regex_ok env) rxs →
  register_arch env (PList rxs) (PInt b) (PStr e) my_arch w = (Raise x, w') →
  arch_id_map w' = arch_id_map w ++ [entry_of rxs b e my_arch]
  ∧ all_arches w' = all_arches w
  ∧ log w' = log w
  ∧ fst (Arch_init env my_arch (if String.eqb e "any" then Endness.BE else e)
           (registered (entry_of rxs b e my_arch) w))
    = Raise x.
Proof.
  intros Hrxs Hreg.
  pose proof (proj2 (check_regexes_ok_iff env rxs w) Hrxs) as Hcheck.
  destruct (String.eqb_spec e "any") as [->|Hne].
  - rewrite (register_arch_any env rxs b my_arch w Hcheck) in Hreg.
    pose proof (Arch_init_globals env my_arch Endness.BE
                  (registered (entry_of rxs b "any" my_arch) w)) as Hg.
    destruct (Arch_init env my_arch Endness.BE _) as [[be|y] w1] eqn:Hbe.
    + exfalso.
      apply Arch_init_inv in Hbe as (_ & _ & ? & uc & Huc & _ & _).
      destruct (init_unicorn_BE_LE env my_arch uc Huc) as [uc' Huc'].
      destruct (Arch_init_constructed env my_arch Endness.LE
                  (snd (all_arches_append be w1)) uc')
        as (vex & w2 & Hle & _);
        [apply list_elem_of_here|discriminate|exact Huc'|].
      rewrite Hle in Hreg. discriminate.
    + injection Hreg as <- <-. cbn [snd] in Hg. injection Hg as -> -> ->.
      repeat split.
  - rewrite (register_arch_fixed env rxs b e my_arch w Hne Hcheck) in Hreg.
    pose proof (Arch_init_globals env my_arch e
                  (registered (entry_of rxs b e my_arch) w)) as Hg.
    destruct (Arch_init env my_arch e _) as [[a|y] w1] eqn:Ha; [discriminate|].
    injection Hreg as <- <-. cbn [snd] in Hg. injection Hg as -> -> ->.
    repeat split.
Qed.

Lemma register_arch_raises_after_append_witness :
  arch_id_map (exec (register_arch bare_env (PList [PStr "^x86"]) (PInt 32)
                       (PStr Endness.BE) sample_x86) empty_world)
  = arch_id_map empty_world
    ++ [entry_of [PStr "^x86"] 32 Endness.BE sample_x86]
  ∧ all_arches (exec (register_arch bare_env (PList [PStr "^x86"]) (PInt 32)
                        (PStr Endness.BE) sample_x86) empty_world)
    = all_arches empty_world
  ∧ log (exec (register_arch bare_env (PList [PStr "^x86"]) (PInt 32)
                 (PStr Endness.BE) sample_x86) empty_world)
    = log empty_world
  ∧ fst (Arch_init bare_env sample_x86
           (if String.eqb Endness.BE "any" then Endness.BE else Endness.BE)
           (registered (entry_of [PStr "^x86"] 32 Endness.BE sample_x86)
                       empty_world))
    = Raise struct_error.
Proof.
  apply (register_arch_raises_after_append bare_env [PStr "^x86"] 32
           Endness.BE sample_x86 empty_world _ struct_error).
  - repeat constructor.
  - vm_compute. reflexivity.
Defined.

(** ** [arch_from_id], continued *)

Section resolution.
Variable env : Env.

Lemma bits_and_endness_fit_bool (e : Entry) (bits : PyVal) (endness : string) :
  bits_and_endness_fit e bits endness
  ↔ (py_truthy bits && bits_differ bits (e_bits e)) = false
    ∧ (String.eqb (e_endness e) "any" || String.eqb endness (e_endness e)
       || String.eqb endness "unsure") = true.
Proof.
  unfold bits_and_endness_fit.
  rewrite andb_false_iff, !orb_true_iff, !String.eqb_eq.
  assert (Hd : bits_differ bits (e_bits e) = false ↔ bits = PInt (e_bits e)).
  { unfold bits_differ. destruct bits as [|z|s|src|l]; try (split; discriminate).
    rewrite negb_false_iff, Z.eqb_eq. split; [intros ->; reflexivity|].
    intros [= ->]. reflexivity. }
  rewrite Hd. tauto.
Qed.

Lemma found_it_cases (arxs : list PyVal) (ident : string) :
  found_it env arxs ident = Ok true ∨ found_it env arxs ident = Ok false
  ∨ found_it env arxs ident = Raise TypeError.
Proof.
  induction arxs as [|rx arxs IH]; [right; left; reflexivity|].
  cbn [found_it]. destruct rx as [|z|s|src|l]; eauto.
  - destruct (re_match env s ident); eauto.
  - destruct (re_match env src ident); eauto.
Qed.

Lemma scan_single (e : Entry) (ident : string) (bits : PyVal)
    (endness : string) :
  (∀ r, scan_arch_id_map env [e] ident bits endness = Ok (Some r)
        ↔ passes_filters env e ident bits endness
          ∧ r = (e_cls e, e_endness e))
  ∧ (scan_arch_id_map env [e] ident bits endness = Ok None
     ↔ passed_over env e ident bits endness).
Proof.
  pose proof (bits_and_endness_fit_bool e bits endness) as Hfit.
  unfold passes_filters, passed_over. cbn [scan_arch_id_map].
  destruct (found_it_cases (e_regexes e) ident) as [Hf|[Hf|Hf]]; rewrite Hf.
  - destruct (py_truthy bits && bits_differ bits (e_bits e)) eqn:Hb.
    + split.
      * intros r. split; [discriminate|]. intros [[_ H] _].
        apply Hfit in H as [? _]. discriminate.
      * split; [|reflexivity]. intros _. right. split; [reflexivity|].
        intros H. apply Hfit in H as [? _]. discriminate.
    + destruct (String.eqb (e_endness e) "any" || String.eqb endness (e_endness e)
                || String.eqb endness "unsure") eqn:He.
      * split.
        -- intros r. split.
           ++ intros [= <-]. split; [|reflexivity]. split; [reflexivity|].
              apply Hfit. split; reflexivity.
           ++ intros [_ ->]. reflexivity.
        -- split; [discriminate|]. intros [[=]|[_ H]]. exfalso. apply H, Hfit.
           split; reflexivity.
      * split.
        -- intros r. split; [discriminate|]. intros [[_ H] _].
           apply Hfit in H as [_ ?]. discriminate.
        -- split; [|reflexivity]. intros _. right. split; [reflexivity|].
           intros H. apply Hfit in H as [_ ?]. discriminate.
  - split.
    + intros r. split; [discriminate|]. intros [[[=] _] _].
    + split; [|reflexivity]. intros _. left. reflexivity.
  - split.
    + intros r. split; [discriminate|]. intros [[[=] _] _].
    + split; [discriminate|]. intros [[=]|[[=] _]].
Qed.

(** What the loop returns comes from the first entry that passes. *)
Lemma scan_arch_id_map_sound (entries : list Entry) (ident : string)
    (bits : PyVal) (endness : string) (r : Variant * string) :
  scan_arch_id_map env entries ident bits endness = Ok (Some r) →
  ∃ pre e post,
    entries = pre ++ e :: post
    ∧ Forall (fun e' => passed_over env e' ident bits endness) pre
    ∧ passes_filters env e ident bits endness
    ∧ r = (e_cls e, e_endness e).
Proof.
  induction entries as [|e entries IH]; [discriminate|].
  rewrite scan_arch_id_map_cons.
  destruct (scan_single e ident bits endness) as [Hsome Hnone].
  destruct (scan_arch_id_map env [e] ident bits endness) as [[r'|]|x] eqn:He.
  - intros [= ->]. destruct (proj1 (Hsome r) eq_refl) as [Hpass ->].
    exists [], e, entries. repeat split; [constructor|apply Hpass..].
  - intros H. destruct (IH H) as (pre & e0 & post & -> & Hpre & Hpass & ->).
    exists (e :: pre), e0, post. split; [reflexivity|].
    split; [constructor; [apply Hnone; reflexivity|exact Hpre]|].
    split; [exact Hpass|reflexivity].
  - discriminate.
Qed.

Lemma scan_arch_id_map_none (entries : list Entry) (ident : string)
    (bits : PyVal) (endness : string) :
  Forall (fun e => passed_over env e ident bits endness) entries →
  scan_arch_id_map env entries ident bits endness = Ok None.
Proof.
  induction 1 as [|e entries He _ IH]; [reflexivity|].
  rewrite scan_arch_id_map_cons.
  rewrite (proj2 (proj2 (scan_single e ident bits endness)) He). exact IH.
Qed.

Lemma scan_arch_id_map_complete (pre post : list Entry) (e : Entry)
    (ident : string) (bits : PyVal) (endness : string) :
  Forall (fun e' => passed_over env e' ident bits endness) pre →
  passes_filters env e ident bits endness →
  scan_arch_id_map env (pre ++ e :: post) ident bits endness
  = Ok (Some (e_cls e, e_endness e)).
Proof.
  intros Hpre Hpass. apply scan_arch_id_map_first.
  - eapply Forall_impl; [exact Hpre|]. intros e' He'.
    apply (proj2 (scan_single e' ident bits endness)), He'.
  - apply (proj1 (scan_single e ident bits endness)). split; [exact Hpass|reflexivity].
Qed.

(** X20. Whatever [arch_from_id] returns is an instance of the class of
    the first entry of [arch_id_map], in registration order, that passes
    the three filters (a pattern matches the lower-cased identifier; the
    normalised bits are unset or equal the entry's; the entry's endness is
    ["any"], or equals the normalised hint, or the hint is unsure); every
    entry before it was passed over, and the registry and the log are not
    changed. *)
Theorem arch_from_id_first_passing_entry (ident endness : string)
    (bits : PyVal) (w w' : World) (a : Arch) :
  arch_from_id env ident endness bits w = (Ok a, w') →
  ∃ pre e post,
    arch_id_map w = pre ++ e :: post
    ∧ Forall (fun e' => passed_over env e' (lower ident)
                          (normalize_bits bits ident)
                          (normalize_endness endness)) pre
    ∧ passes_filters env e (lower ident) (normalize_bits bits ident)
                     (normalize_endness endness)
    ∧ cls a = e_cls e
    ∧ globals w' = globals w.
Proof.
  unfold arch_from_id. unfold bind at 1. unfold bind at 1. unfold lift.
  destruct (scan_arch_id_map env (arch_id_map w) (lower ident)
              (normalize_bits bits ident) (normalize_endness endness))
    as [[[cls0 aend]|]|x] eqn:Hscan; try discriminate.
  apply scan_arch_id_map_sound in Hscan
    as (pre & e & post & Hmap & Hpre & Hpass & [= -> ->]).
  intros Hres. exists pre, e, post.
  split; [exact Hmap|]. split; [exact Hpre|]. split; [exact Hpass|].
  assert (Hinit : ∃ e', Arch_init env (e_cls e) e' w = (Ok a, w')).
  { destruct (String.eqb (normalize_endness endness) "unsure").
    - destruct (String.eqb (e_endness e) "any").
      + destruct (cls_init_default (e_cls e)); [eauto|discriminate].
      + eauto.
    - eauto. }
  destruct Hinit as [e' Hinit].
  apply Arch_init_inv in Hinit as (_ & _ & ? & ? & _ & -> & Hg).
  split; [reflexivity|exact Hg].
Qed.

(** X21. Let [e] be the first entry of [arch_id_map] that passes the
    filters.  With a hint that normalises to an endness, [arch_from_id]
    is the construction of [e]'s class with that endness; with an unsure
    hint and a fixed endness in [e], with [e]'s endness; with an unsure
    hint and ["any"] in [e], the call of the class without argument, which
    raises [TypeError] when the class has no default endness. *)
Theorem arch_from_id_resolution (ident endness : string) (bits : PyVal)
    (w : World) (pre post : list Entry) (e : Entry) :
  arch_id_map w = pre ++ e :: post →
  Forall (fun e' => passed_over env e' (lower ident)
                      (normalize_bits bits ident)
                      (normalize_endness endness)) pre →
  passes_filters env e (lower ident) (normalize_bits bits ident)
                 (normalize_endness endness) →
  (normalize_endness endness ≠ "unsure" →
   arch_from_id env ident endness bits w
   = Arch_init env (e_cls e) (normalize_endness endness) w)
  ∧ (normalize_endness endness = "unsure" → e_endness e ≠ "any" →
     arch_from_id env ident endness bits w
     = Arch_init env (e_cls e) (e_endness e) w)
  ∧ (normalize_endness endness = "unsure" → e_endness e = "any" →
     arch_from_id env ident endness bits w
     = match cls_init_default (e_cls e) with
       | Some d => Arch_init env (e_cls e) d w
       | None => (Raise TypeError, w)
       end).
Proof.
  intros Hmap Hpre Hpass.
  assert (Hres : arch_from_id env ident endness bits w
                 = (if String.eqb (normalize_endness endness) "unsure"
                    then if String.eqb (e_endness e) "any"
                         then match cls_init_default (e_cls e) with
                              | Some d => Arch_init env (e_cls e) d
                              | None => raise TypeError
                              end
                         else Arch_init env (e_cls e) (e_endness e)
                    else Arch_init env (e_cls e) (normalize_endness endness)) w).
  { unfold arch_from_id. unfold bind at 1. unfold bind at 1. unfold lift.
    rewrite Hmap, (scan_arch_id_map_complete pre post e _ _ _ Hpre Hpass).
    reflexivity. }
  rewrite Hres. split; [|split].
  - intros Hne. apply String.eqb_neq in Hne. rewrite Hne. reflexivity.
  - intros Hu Hfixed. apply String.eqb_eq in Hu. apply String.eqb_neq in Hfixed.
    rewrite Hu, Hfixed. reflexivity.
  - intros Hu Hany. apply String.eqb_eq in Hu. apply String.eqb_eq in Hany.
    rewrite Hu, Hany. destruct (cls_init_default (e_cls e)); reflexivity.
Qed.

(** X22. When every entry of [arch_id_map] is passed over, in particular
    when the registry is empty, [arch_from_id] raises [RuntimeError] and
    changes nothing. *)
Theorem arch_from_id_unknown (ident endness : string) (bits : PyVal)
    (w : World) :
  Forall (fun e => passed_over env e (lower ident) (normalize_bits bits ident)
                     (normalize_endness endness)) (arch_id_map w) →
  arch_from_id env ident endness bits w = (Raise RuntimeError, w).
Proof.
  intros Hall. unfold arch_from_id. unfold bind at 1. unfold bind at 1.
  unfold lift. rewrite (scan_arch_id_map_none _ _ _ _ Hall). reflexivity.
Qed.
End resolution.

Lemma arch_from_id_first_passing_entry_witness :
  ∃ pre e post,
    arch_id_map world_after_B = pre ++ e :: post
    ∧ cls sample_mips_le = e_cls e
    ∧ globals world_after_B = globals world_after_B.
Proof.
  destruct (arch_from_id_first_passing_entry bare_env "foo32" "any" (PStr "")
              world_after_B world_after_B sample_mips_le)
    as (pre & e & post & Hmap & _ & _ & Hcls & Hg).
  - vm_compute. reflexivity.
  - exists pre, e, post. repeat split; assumption.
Defined.

Lemma arch_from_id_resolution_witness :
  arch_from_id bare_env "foo32" "any" (PStr "") world_after_B
  = Arch_init bare_env sample_mips Endness.LE world_after_B.
Proof.
  destruct (arch_from_id_resolution bare_env "foo32" "any" (PStr "")
              world_after_B []
              [entry_of [PStr "^foo"] 32 "any" sample_keyed_by_name]
              (entry_of [PStr "^foo"] 32 Endness.LE sample_mips))
    as (_ & H & _).
  - vm_compute. reflexivity.
  - constructor.
  - split; [vm_compute; reflexivity|]. split.
    + right. vm_compute. reflexivity.
    + right. right. vm_compute. reflexivity.
  - apply H; [vm_compute; reflexivity|discriminate].
Defined.

Lemma arch_from_id_unknown_witness :
  arch_from_id bare_env "nonexistent_arch_9000" "any" (PStr "") empty_world
  = (Raise RuntimeError, empty_world).
Proof.
  apply (arch_from_id_unknown bare_env "nonexistent_arch_9000" "any" (PStr "")
           empty_world).
  constructor.
Defined.

(** ** Registration order *)



(** The two entries below A are looked at first, and A still decides:
    the call returns the little-endian MIPS32 instance. *)
Example arch_from_id_after_earlier_entries :
  map e_regexes (arch_id_map world_A_then_B)
  = [[PStr "^bar"]; [PStr "^foo"]; [PStr "^foo"]; [PStr "^foo"]]
  ∧ res_map (fun a => (name a, memory_endness a))
            (run (arch_from_id_default bare_env "foo32") world_A_then_B)
    = Ok (Some "MIPS32", Endness.LE)
  ∧ res_map (fun a => (name a, memory_endness a))
            (run (arch_from_id_default bare_env "foo32") world_B_then_A)
    = Ok (Some "ARMEL", Endness.LE).
Proof. vm_compute. repeat split; reflexivity. Qed.

(** ** Letter case in [arch_from_id] *)

Lemma ascii_lower_digit (c d : ascii) :
  d = "6"%char ∨ d = "4"%char ∨ d = "3"%char ∨ d = "2"%char →
  (d = ascii_lower c ↔ d = c).
Proof.
  intros [-> | [-> | [-> | ->]]];
    destruct c as [[] [] [] [] [] [] [] []]; vm_compute; split; congruence.
Qed.

Lemma prefix_nil (s : string) : String.prefix "" s = true.
Proof. destruct s; reflexivity. Qed.

Lemma prefix_lower (p s : string) :
  (∀ d, In d (list_ascii_of_string p) → ∀ c, d = ascii_lower c ↔ d = c) →
  String.prefix p (lower s) = String.prefix p s.
Proof.
  revert p. induction s as [|c s IH]; intros p Hp; [reflexivity|].
  destruct p as [|d p]; [reflexivity|].
  cbn [lower].
  change (String.prefix (String d p) (String (ascii_lower c) (lower s)))
    with (if ascii_dec d (ascii_lower c) then String.prefix p (lower s) else false).
  change (String.prefix (String d p) (String c s))
    with (if ascii_dec d c then String.prefix p s else false).
  pose proof (Hp d (or_introl eq_refl) c) as Hd.
  rewrite IH by (intros d' Hd'; apply Hp; right; exact Hd').
  destruct (ascii_dec d (ascii_lower c)) as [H1|H1], (ascii_dec d c) as [H2|H2];
    try reflexivity; exfalso; tauto.
Qed.

Lemma contains_lower (p s : string) :
  (∀ d, In d (list_ascii_of_string p) → ∀ c, d = ascii_lower c ↔ d = c) →
  contains p (lower s) = contains p s.
Proof.
  intros Hp. induction s as [|c s IH].
  - reflexivity.
  - change (contains p (lower (String c s)))
      with (String.prefix p (lower (String c s)) || contains p (lower s)).
    change (contains p (String c s))
      with (String.prefix p (String c s) || contains p s).
    rewrite IH, (prefix_lower p (String c s) Hp). reflexivity.
Qed.

Lemma normalize_bits_lower (bits : PyVal) (ident : string) :
  normalize_bits bits (lower ident) = normalize_bits bits ident.
Proof.
  unfold normalize_bits.
  rewrite (contains_lower "64" ident), (contains_lower "32" ident).
  - reflexivity.
  - intros d [<-|[<-|[]]] c; apply ascii_lower_digit; tauto.
  - intros d [<-|[<-|[]]] c; apply ascii_lower_digit; tauto.
Qed.

(** X23. [arch_from_id] does not see the letter case of the identifier
    and of the endness hint: two calls whose identifiers have the same
    lower-cased form and whose hints have the same lower-cased form give
    the same result in the same world (the bit-width read off the
    identifier is a pair of digits, which lower-casing keeps). *)
Theorem arch_from_id_case_insensitive (env : Env) (ident1 ident2 : string)
    (endness1 endness2 : string) (bits : PyVal) (w : World) :
  lower ident1 = lower ident2 →
  lower endness1 = lower endness2 →
  arch_from_id env ident1 endness1 bits w
  = arch_from_id env ident2 endness2 bits w.
Proof.
  intros Hi He. unfold arch_from_id.
  rewrite <- (normalize_bits_lower bits ident1),
          <- (normalize_bits_lower bits ident2), Hi.
  unfold normalize_endness. rewrite He. reflexivity.
Qed.

Lemma arch_from_id_case_insensitive_witness :
  arch_from_id bare_env "Foo32" "BIG" (PStr "") world_after_B
  = arch_from_id bare_env "foo32" "big" (PStr "") world_after_B.
Proof.
  apply (arch_from_id_case_insensitive bare_env "Foo32" "foo32" "BIG" "big");
    reflexivity.
Defined.

(** ** [gather_info_from_state], [prepare_state] *)

Section state_transfer_facts.
Variables St V : Type.
Variable load : St → string → V.
Variable store : St → string → V → St.

Lemma gather_fold_lookup (regs : list string) (state : St)
    (info : gmap string V) (r : string) :
  fold_left (fun info reg => <[reg := load state reg]> info) regs info !! r
  = if bool_decide (r ∈ regs) then Some (load state r) else info !! r.
Proof.
  revert info. induction regs as [|reg regs IH]; intros info.
  - rewrite bool_decide_eq_false_2 by apply not_elem_of_nil. reflexivity.
  - cbn [fold_left]. rewrite IH. destruct (decide (r = reg)) as [->|Hne].
    + rewrite (bool_decide_eq_true_2 (reg ∈ reg :: regs))
        by apply list_elem_of_here.
      rewrite lookup_insert_eq. destruct (bool_decide (reg ∈ regs)); reflexivity.
    + assert (Hmem : bool_decide (r ∈ reg :: regs) = bool_decide (r ∈ regs)).
      { apply bool_decide_ext. rewrite elem_of_cons. tauto. }
      rewrite Hmem, lookup_insert_ne by congruence. reflexivity.
Qed.

(** X24. [gather_info_from_state] returns a dict whose keys are exactly
    the persistent registers, each mapped to what the state's [load] gives
    for it. *)
Theorem gather_info_exact (more : MoreAttributes) (state : St) :
  (∀ r, gather_info_from_state St V load more state !! r
        = if bool_decide (r ∈ cls_persistent_regs more)
          then Some (load state r) else None)
  ∧ dom (gather_info_from_state St V load more state)
    = list_to_set (cls_persistent_regs more).
Proof.
  assert (Hlook : ∀ r, gather_info_from_state St V load more state !! r
                       = if bool_decide (r ∈ cls_persistent_regs more)
                         then Some (load state r) else None).
  { intros r. unfold gather_info_from_state. rewrite gather_fold_lookup.
    rewrite lookup_empty. reflexivity. }
  split; [exact Hlook|].
  apply set_eq. intros r. rewrite elem_of_dom, Hlook, elem_of_list_to_set.
  case_bool_decide as Hin.
  - split; [intros _; exact Hin|intros _; eauto].
  - split; [intros [? [=]]|intros ?; contradiction].
Qed.

Hypothesis load_store_same : ∀ state reg val, load (store state reg val) reg = val.
Hypothesis load_store_other :
  ∀ state reg reg' val, reg ≠ reg' → load (store state reg val) reg' = load state reg'.

Lemma prepare_fold_load (regs : list string) (info : gmap string V)
    (state : St) (r : string) :
  load (fold_left (fun state reg =>
                     match info !! reg with
                     | Some val => store state reg val
                     | None => state
                     end) regs state) r
  = match info !! r with
    | Some val => if bool_decide (r ∈ regs) then val else load state r
    | None => load state r
    end.
Proof.
  revert state. induction regs as [|reg regs IH]; intros state.
  - rewrite bool_decide_eq_false_2 by apply not_elem_of_nil.
    destruct (info !! r); reflexivity.
  - cbn [fold_left]. rewrite IH. destruct (decide (r = reg)) as [->|Hne].
    + rewrite (bool_decide_eq_true_2 (reg ∈ reg :: regs))
        by apply list_elem_of_here.
      destruct (info !! reg) as [val|]; [|reflexivity].
      rewrite load_store_same. destruct (bool_decide (reg ∈ regs)); reflexivity.
    + assert (Hmem : bool_decide (r ∈ reg :: regs) = bool_decide (r ∈ regs)).
      { apply bool_decide_ext. rewrite elem_of_cons. tauto. }
      rewrite Hmem.
      assert (Hload : load (match info !! reg with
                            | Some val => store state reg val
                            | None => state
                            end) r = load state r).
      { destruct (info !! reg); [apply load_store_other; congruence|reflexivity]. }
      rewrite Hload. reflexivity.
Qed.

(** X25. For a state whose [store] sets the register it names and no
    other: after [prepare_state(state, info)] a register reads the value
    [info] holds for it if it is a persistent register and a key of
    [info], and reads as before in every other case (keys of [info] that
    are not persistent registers are ignored); with [info] omitted the
    state is returned as it is. *)
Theorem prepare_state_writes_persistent (more : MoreAttributes) (state : St)
    (info : gmap string V) :
  (∀ r, load (prepare_state St V store more state (Some info)) r
        = match info !! r with
          | Some val =>
              if bool_decide (r ∈ cls_persistent_regs more)
              then val else load state r
          | None => load state r
          end)
  ∧ prepare_state St V store more state None = state.
Proof.
  split; [|reflexivity]. intros r. unfold prepare_state.
  apply prepare_fold_load.
Qed.

(** X26. Transplanting registers: after
    [prepare_state(target, gather_info_from_state(source))] every
    persistent register reads as it does in [source] and every other
    register reads as it did in [target]. *)
Theorem state_transplant (more : MoreAttributes) (source target : St)
    (r : string) :
  load (prepare_state St V store more target
          (Some (gather_info_from_state St V load more source))) r
  = if bool_decide (r ∈ cls_persistent_regs more)
    then load source r else load target r.
Proof.
  unfold prepare_state, gather_info_from_state.
  rewrite prepare_fold_load, gather_fold_lookup, lookup_empty.
  destruct (bool_decide (r ∈ cls_persistent_regs more)); reflexivity.
Qed.
End state_transfer_facts.

Lemma regfile_load_store_same (state : string → Z) (reg : string) (val : Z) :
  regfile_load (regfile_store state reg val) reg = val.
Proof. unfold regfile_load, regfile_store. rewrite String.eqb_refl. reflexivity. Qed.

Lemma regfile_load_store_other (state : string → Z) (reg reg' : string)
    (val : Z) :
  reg ≠ reg' → regfile_load (regfile_store state reg val) reg' = regfile_load state reg'.
Proof.
  intros Hne. unfold regfile_load, regfile_store.
  destruct (String.eqb_spec reg' reg); [congruence|reflexivity].
Qed.

Lemma prepare_state_writes_persistent_witness :
  regfile_load
    (prepare_state (string → Z) Z regfile_store sample_mips_more (fun _ => 0)
       (Some {[ "v0" := 5; "ra" := 9 ]})) "ra"
  = 0
  ∧ prepare_state (string → Z) Z regfile_store sample_mips_more (fun _ => 0) None
    = (fun _ => 0).
Proof.
  destruct (prepare_state_writes_persistent (string → Z) Z regfile_load
              regfile_store regfile_load_store_same regfile_load_store_other
              sample_mips_more (fun _ => 0) {[ "v0" := 5; "ra" := 9 ]})
    as [H1 H2].
  split; [|exact H2]. rewrite H1. vm_compute. reflexivity.
Defined.

Lemma state_transplant_witness :
  regfile_load
    (prepare_state (string → Z) Z regfile_store sample_mips_more (fun _ => 0)
       (Some (gather_info_from_state (string → Z) Z regfile_load
                sample_mips_more (fun _ => 7)))) "v0"
  = 7.
Proof.
  rewrite (state_transplant (string → Z) Z regfile_load regfile_store
             regfile_load_store_same regfile_load_store_other
             sample_mips_more (fun _ => 7) (fun _ => 0) "v0").
  reflexivity.
Defined.

(** ** [get_default_reg_value] *)

Lemma first_default_None (values : list (string * Z * bool * option string))
    (register : string) :
  first_default values register = None
  ↔ ∀ val b o, (register, val, b, o) ∉ values.
Proof.
  induction values as [|[[[reg val] b] o] values IH].
  - split; [intros _ ? ? ?; apply not_elem_of_nil|reflexivity].
  - cbn [first_default]. destruct (String.eqb_spec reg register) as [->|Hne].
    + split; [discriminate|]. intros H. exfalso.
      apply (H val b o), list_elem_of_here.
    + rewrite IH. split.
      * intros H val' b' o'. rewrite not_elem_of_cons. split; [congruence|apply H].
      * intros H val' b' o'. specialize (H val' b' o').
        rewrite not_elem_of_cons in H. apply H.
Qed.

(** X27. [get_default_reg_value]: a register that no tuple of
    [default_register_values] names has no default.  The name ['sp'] is
    first resolved through the forward table: when no register sits at
    [sp_offset] the answer is [None] whatever the tuples say, and when the
    first register at [sp_offset] has another name, the answer is the
    default of that register, the tuples named ['sp'] not being looked
    at. *)
Theorem get_default_reg_value_stack_pointer (self : Arch)
    (more : MoreAttributes) :
  (∀ register,
     register ≠ "sp" →
     (∀ val b o, (register, val, b, o) ∉ cls_default_register_values more) →
     get_default_reg_value self more register = None)
  ∧ (registers_at (cls_registers (cls self)) (cls_sp_offset more) = [] →
     get_default_reg_value self more "sp" = None)
  ∧ (∀ r rest,
       registers_at (cls_registers (cls self)) (cls_sp_offset more) = r :: rest →
       r ≠ "sp" →
       get_default_reg_value self more "sp"
       = get_default_reg_value self more r).
Proof.
  unfold get_default_reg_value. split; [|split].
  - intros register Hne Hnone. apply String.eqb_neq in Hne. rewrite Hne.
    apply first_default_None, Hnone.
  - intros ->. reflexivity.
  - intros r rest -> Hne. apply String.eqb_neq in Hne. rewrite Hne.
    reflexivity.
Qed.

Lemma get_default_reg_value_stack_pointer_witness :
  get_default_reg_value sample_mips_le sample_mips_more "sp"
  = get_default_reg_value sample_mips_le sample_mips_more "v0"
  ∧ get_default_reg_value sample_mips_le Arch_class_more "sp" = None.
Proof.
  destruct (get_default_reg_value_stack_pointer sample_mips_le sample_mips_more)
    as (_ & _ & H).
  destruct (get_default_reg_value_stack_pointer sample_mips_le Arch_class_more)
    as (_ & H0 & _).
  split.
  - apply (H "v0" []); [reflexivity|discriminate].
  - apply H0. reflexivity.
Defined.

(** ** [library_search_path] *)

Lemma bits_match {A} (b : option Z) (x64 x32 other : A) :
  match b with Some 64 => x64 | Some 32 => x32 | _ => other end
  = if bool_decide (b = Some 64) then x64
    else if bool_decide (b = Some 32) then x32 else other.
Proof.
  destruct b as [[|p|p]|]; try reflexivity.
  do 7 (try destruct p as [p|p|]; try reflexivity).
Qed.

Lemma map_lookup {A B} (f : A → B) (l : list A) (i : nat) :
  map f l !! i = f <$> (l !! i).
Proof.
  revert i. induction l as [|x l IH]; intros [|i]; try reflexivity.
  cbn. apply IH.
Qed.

Lemma pedantic_paths_length (path : list string) :
  length (pedantic_paths path) = (4 * length path)%nat.
Proof.
  induction path as [|x path IH]; [reflexivity|].
  unfold pedantic_paths in *. cbn [map concat]. rewrite length_app, IH.
  cbn [length]. lia.
Qed.

Lemma pedantic_paths_plain (path : list string) (i : nat) :
  pedantic_paths path !! (4 * i + 3)%nat = path !! i.
Proof.
  revert i. induction path as [|x path IH]; intros i.
  - destruct i; reflexivity.
  - destruct i as [|i]; [reflexivity|].
    replace (4 * S i + 3)%nat with (S (S (S (S (4 * i + 3))))) by lia.
    cbn. apply IH.
Qed.

(** X28. [library_search_path] raises [TypeError] when [triplet] or
    [linux_name] is [None]; otherwise it returns 8 paths for a 64-bit
    class, 7 for a 32-bit class and 5 for any other width, and four times
    as many when [pedantic]; and the pedantic answer holds the plain
    answer, in the same order, at every fourth position (after the three
    [tls/] and architecture sub-directories of each path). *)
Theorem library_search_path_shape (self : Arch) (more : MoreAttributes) :
  (cls_triplet more = None ∨ cls_linux_name more = None →
   ∀ pedantic, library_search_path self more pedantic = Raise TypeError)
  ∧ (is_Some (cls_triplet more) → is_Some (cls_linux_name more) →
     ∃ plain full,
       library_search_path self more false = Ok plain
       ∧ library_search_path self more true = Ok full
       ∧ length plain
         = (if bool_decide (bits self = Some 64) then 8%nat
            else if bool_decide (bits self = Some 32) then 7%nat else 5%nat)
       ∧ length full = (4 * length plain)%nat
       ∧ ∀ i, full !! (4 * i + 3)%nat = plain !! i).
Proof.
  unfold library_search_path. split.
  - intros [Hnone|Hnone] pedantic; rewrite Hnone; [reflexivity|].
    destruct (cls_triplet more); reflexivity.
  - intros [t ->] [n ->]. eexists _, _.
    split; [reflexivity|]. split; [reflexivity|].
    rewrite !length_map, pedantic_paths_length.
    split; [|split; [reflexivity|]].
    + rewrite bits_match. repeat case_bool_decide; reflexivity.
    + intros i. rewrite !map_lookup, pedantic_paths_plain. reflexivity.
Qed.

Lemma library_search_path_shape_witness :
  ∃ plain full,
    library_search_path sample_mips_le sample_mips_more false = Ok plain
    ∧ library_search_path sample_mips_le sample_mips_more true = Ok full
    ∧ length plain
      = (if bool_decide (bits sample_mips_le = Some 64) then 8%nat
         else if bool_decide (bits sample_mips_le = Some 32) then 7%nat
         else 5%nat)
    ∧ length full = (4 * length plain)%nat
    ∧ ∀ i, full !! (4 * i + 3)%nat = plain !! i.
Proof.
  apply (library_search_path_shape sample_mips_le sample_mips_more);
    eexists; reflexivity.
Defined.

Example library_search_path_sample :
  library_search_path sample_mips_le sample_mips_more false
  = Ok ["/lib/mipsel-linux-gnu/"; "/usr/lib/mipsel-linux-gnu/"; "/lib/";
        "/usr/lib"; "/usr/mipsel-linux-gnu/lib/";
        "/usr/mipsel-linux-gnu/lib32/"; "/usr/lib32/"].
Proof. vm_compute. reflexivity. Qed.
